(** * Number-theory commands of the Botan CLI ([src/cli/math.cpp])

    A shallow embedding of the [mod_inverse] and [factor] commands:
    [Factor::remove_small_factors], [Factor::rho], [Factor::factorize] and
    the two [go] entry points, together with the properties the
    specification states about them.

    [Botan::BigInt] is read as [Z].  Loops that the source writes as
    [while] are recursive functions on a step budget ([fuel]); a run that
    has used its budget is reported as [Running], so that "the call
    returns" is a statement that can be proved (or refuted).

    The commands are given twice: on values ([Factor]), where a
    [BigInt&] parameter becomes a value that is returned, and on a store
    of [BigInt] objects ([ByReference]), where references are passed as
    in the source; the second is shown to compute what the first
    computes, and is where "the caller's integer is unchanged" is a
    statement. *)

From Stdlib Require Import ZArith Zcong List Bool Lia String Ascii.
From Stdlib Require Import Sorted Permutation DecimalString.
Import ListNotations.

Local Open Scope Z_scope.

(** ** Outcome of a call *)

(** Exceptions of the library that reach the command surface. *)
Inductive exn : Type :=
| Invalid_Argument (what : string).

(** A call has returned a value, has thrown, or is still executing when
    the step budget ran out. *)
Inductive outcome (A : Type) : Type :=
| Returned (a : A)
| Thrown (e : exn)
| Running.

Arguments Returned {A} a.
Arguments Thrown {A} e.
Arguments Running {A}.

Definition bind {A B : Type} (m : outcome A) (f : A -> outcome B) : outcome B :=
  match m with
  | Returned a => f a
  | Thrown e => Thrown e
  | Running => Running
  end.

Notation "' p <- m ;; k" := (bind m (fun p => k))
  (at level 61, p pattern, m at next level, right associativity).

(** ** Integers *)

(** Product of the entries of a factor list. *)
Definition product (l : list Z) : Z := fold_right Z.mul 1 l.

(** Number of trailing zero bits of a positive binary numeral. *)
Fixpoint pos_val2 (p : positive) : nat :=
  match p with
  | xO q => S (pos_val2 q)
  | _ => O
  end.

(** 2-adic valuation of a non-zero integer (0 at 0). *)
Definition val2 (n : Z) : nat :=
  match n with
  | Zpos p | Zneg p => pos_val2 p
  | Z0 => O
  end.

(** Decimal text of an integer, as [operator<<] prints a [BigInt]. *)
Definition dec (n : Z) : string := NilZero.string_of_int (Z.to_int n).

Definition newline : string := String (ascii_of_nat 10) EmptyString.

(** [std::sort] on a vector of integers: insertion sort. *)
Fixpoint insert_sorted (a : Z) (l : list Z) : list Z :=
  match l with
  | [] => [a]
  | b :: l' => if a <=? b then a :: l else b :: insert_sorted a l'
  end.

Definition sort (l : list Z) : list Z := fold_right insert_sorted [] l.

(** Exact primality by trial division: the reference oracle. *)
Fixpoint no_divisor_from (d : Z) (count : nat) (n : Z) : bool :=
  match count with
  | O => true
  | S c => negb (n mod d =? 0) && no_divisor_from (d + 1) c n
  end.

Definition primeb (n : Z) : bool :=
  (1 <? n) && no_divisor_from 2 (Z.to_nat (n - 2)) n.

(** ** The library behind the commands

    [math.cpp] is written against [botan/numthry.h], [botan/monty.h] and
    the random number generator.  Their code is not part of the command
    file; the commands are verified against their interface. *)

(** Modelled from the spec: [Botan::gcd], the "greatest-common-divisor
    primitive over arbitrary-precision integers"; its code is in the
    library, not in the command file. *)
Definition gcd (a b : Z) : Z := Z.gcd a b.

Class Botan : Type := {
  (** Width of [size_t] on the platform the library is built for. *)
  size_t_bits : Z;
  (** [Botan::RandomNumberGenerator]: the state of the generator. *)
  RandomNumberGenerator : Type;
  (** [BigInt::random_integer(rng, min, max)]. *)
  random_integer : RandomNumberGenerator -> Z -> Z -> Z * RandomNumberGenerator;
  (** [Botan::is_prime(n, rng)], the primality oracle. *)
  is_prime : Z -> RandomNumberGenerator -> bool * RandomNumberGenerator;
  (** [Botan::PRIMES], [PRIME_TABLE_SIZE] entries of type [uint16_t]. *)
  PRIMES : list Z;
  (** [Botan::Montgomery_Params] and [Botan::Montgomery_Int]. *)
  Montgomery_Params : Type;
  Montgomery_Int : Type;
  make_params : Z -> Montgomery_Params;
  R1 : Montgomery_Params -> Z;
  (** Constructor [Montgomery_Int(params, v, redc_needed)]. *)
  make_int : Montgomery_Params -> Z -> bool -> Montgomery_Int;
  square_this : Montgomery_Int -> Montgomery_Int;
  add : Montgomery_Int -> Montgomery_Int -> Montgomery_Int;
  sub : Montgomery_Int -> Montgomery_Int -> Montgomery_Int;
  mul_by : Montgomery_Int -> Montgomery_Int -> Montgomery_Int;
  value : Montgomery_Int -> Z
}.

(** Arithmetic on a [size_t] wraps around. *)
Definition size_t `{Botan} (v : Z) : Z := v mod 2 ^ size_t_bits.

(** What the specification says of the table: ascending, without
    duplicates, and made of primes. *)
Definition table_ascending `{Botan} : Prop := StronglySorted Z.lt PRIMES.
Definition table_of_primes `{Botan} : Prop := Forall Z.prime PRIMES.

(** An oracle that is never wrong. *)
Definition oracle_exact `{Botan} : Prop :=
  forall n g, fst (is_prime n g) = true <-> Z.prime n.

(** What [botan/monty.h] promises of the integers built for the modulus
    [n] (the [members]): each stands for a residue modulo [n], [value]
    gives that residue, and [square_this], [add], [sub] and [mul_by] are
    the operations of the residues. *)
Record modular_arithmetic `{Botan} (n : Z) (members : Montgomery_Int -> Prop) : Prop := {
  arith_make : forall v redc_needed, members (make_int (make_params n) v redc_needed);
  arith_range : forall x, members x -> 0 <= value x < n;
  arith_one : value (make_int (make_params n) (R1 (make_params n)) false) = 1 mod n;
  arith_square : forall x, members x ->
    members (square_this x) /\ value (square_this x) = (value x * value x) mod n;
  arith_add : forall x y, members x -> members y ->
    members (add x y) /\ value (add x y) = (value x + value y) mod n;
  arith_sub : forall x y, members x -> members y ->
    members (sub x y) /\ value (sub x y) = (value x - value y) mod n;
  arith_mul : forall x y, members x -> members y ->
    members (mul_by x y) /\ value (mul_by x y) = (value x * value y) mod n
}.

(** What [factorize] is expected to return for the argument [n]: a vector
    of product [n] in which 2 occurs as often as in [n], and made of
    primes as far as the oracle can be trusted. *)
Definition factorization_of `{Botan} (n : Z) (fs : list Z) : Prop :=
  product fs = n /\
  count_occ Z.eq_dec fs 2 = val2 n /\
  ((forall m g, fst (is_prime m g) = true -> Z.prime m) -> Forall Z.prime fs).

(** The bound of the iteration counter of [rho]. *)
Definition rho_cap : Z := 0xFFFF0000.

(** ** [mod_inverse] *)

Module Modular_Inverse.

(** Modelled from the spec: [Botan::inverse_mod], whose code is not in the
    command file.  "Returns the inverse of [n] modulo [mod]; fails when
    [n] has no inverse (not coprime with [mod])". *)
Definition inverse_mod (n mod_ : Z) : outcome Z :=
  if Z.gcd n mod_ =? 1
  then Returned (Z.invmod n mod_)
  else Thrown (Invalid_Argument "inverse_mod: no inverse").

(** [Modular_Inverse::go]: prints the inverse and a line break. *)
Definition go (n mod_ : Z) : outcome string :=
  ' r <- inverse_mod n mod_ ;;
  Returned (dec r ++ newline)%string.

End Modular_Inverse.

(** ** [factor] *)

Module Factor.

Section Commands.

Context `{Lib : Botan}.

(** *** [remove_small_factors] *)

(** [while(n.is_even()) { factors.push_back(2); n /= 2; }] *)
Fixpoint even_loop (fuel : nat) (n : Z) (factors : list Z) : outcome (Z * list Z) :=
  match fuel with
  | O => Running
  | S fuel' =>
      if Z.even n
      then even_loop fuel' (n / 2) (factors ++ [2])
      else Returned (n, factors)
  end.

(** [while(x != 1) { x /= prime; factors.push_back(prime); }] *)
Fixpoint push_loop (fuel : nat) (x prime : Z) (factors : list Z) : outcome (list Z) :=
  match fuel with
  | O => Running
  | S fuel' =>
      if x =? 1
      then Returned factors
      else push_loop fuel' (x / prime) prime (factors ++ [prime])
  end.

(** The [for] loop over the table, from index [j] on ([primes] is the
    rest of the table). *)
Fixpoint table_loop (fuel : nat) (primes : list Z) (n : Z) (factors : list Z)
  : outcome (Z * list Z) :=
  match primes with
  | [] => Returned (n, factors)
  | prime :: rest =>
      if n <? prime then Returned (n, factors)
      else
        let x := gcd n prime in
        if negb (x =? 1)
        then ' factors' <- push_loop fuel x prime factors ;;
             table_loop fuel rest (n / x) factors'
        else table_loop fuel rest n factors
  end.

(** The argument is a [BigInt&]: the value left in it is returned next to
    the vector of factors. *)
Definition remove_small_factors (fuel : nat) (n : Z) : outcome (Z * list Z) :=
  ' (n1, factors) <- even_loop fuel n [] ;;
  table_loop fuel PRIMES n1 factors.

(** *** [rho] *)

Inductive rho_step : Type :=
| Rho_break
| Rho_return (d : Z)
| Rho_continue (x y z : Montgomery_Int) (i k : Z).

(** The end of a turn: [if(i == k) { y = x; k = 2 * k; }]. *)
Definition rho_next (x y z : Montgomery_Int) (i k : Z) : rho_step :=
  if i =? k
  then Rho_continue x x z i (size_t (2 * k))
  else Rho_continue x y z i k.

(** One turn of the [while(true)] loop. *)
Definition rho_iteration (n : Z) (one x y z : Montgomery_Int) (i k : Z) : rho_step :=
  let i := size_t (i + 1) in
  if 0xFFFF0000 <=? i then Rho_break     (* bad seed? too slow? bail out *)
  else
    let x := add (square_this x) one in  (* x = x^2, then x = x + 1 *)
    let t := sub y x in
    let z := mul_by z t in
    if (i =? k) || (i mod 128 =? 0)
    then
      let d := gcd (value z) n in
      let z := one in
      if d =? n then Rho_break
      else if negb (d =? 1) then Rho_return d
      else rho_next x y z i k
    else rho_next x y z i k.

Fixpoint rho_loop (fuel : nat) (n : Z) (one x y z : Montgomery_Int) (i k : Z)
  : outcome Z :=
  match fuel with
  | O => Running
  | S fuel' =>
      match rho_iteration n one x y z i k with
      | Rho_break => Returned 0          (* failed *)
      | Rho_return d => Returned d
      | Rho_continue x' y' z' i' k' => rho_loop fuel' n one x' y' z' i' k'
      end
  end.

Definition rho (fuel : nat) (n : Z) (rng : RandomNumberGenerator)
  : outcome (Z * RandomNumberGenerator) :=
  let monty_n := make_params n in
  let one := make_int monty_n (R1 monty_n) false in
  let '(x0, rng1) := random_integer rng 2 (n - 3) in
  let x := make_int monty_n x0 false in
  let y := x in
  let z := one in
  ' d <- rho_loop fuel n one x y z 1 2 ;;
  Returned (d, rng1).

(** *** [factorize] *)

(** [while(a_factor == 0) { a_factor = rho(n, rng); }] *)
Fixpoint rho_retry (fuel : nat) (n : Z) (rng : RandomNumberGenerator)
  : outcome (Z * RandomNumberGenerator) :=
  match fuel with
  | O => Running
  | S fuel' =>
      ' (a_factor, rng1) <- rho fuel' n rng ;;
      if a_factor =? 0 then rho_retry fuel' n rng1 else Returned (a_factor, rng1)
  end.

(** The [while(n != 1)] loop; [self] is the recursive call of
    [factorize]. *)
Fixpoint factorize_loop
    (self : Z -> RandomNumberGenerator -> outcome (list Z * RandomNumberGenerator))
    (fuel : nat) (n : Z) (factors : list Z) (rng : RandomNumberGenerator)
  : outcome (list Z * RandomNumberGenerator) :=
  match fuel with
  | O => Running
  | S fuel' =>
      if n =? 1 then Returned (factors, rng)
      else
        let '(is_p, rng1) := is_prime n rng in
        if is_p then Returned (factors ++ [n], rng1)
        else
          ' (a_factor, rng2) <- rho_retry fuel' n rng1 ;;
          ' (rho_factored, rng3) <- self a_factor rng2 ;;
          factorize_loop self fuel' (n / a_factor) (factors ++ rho_factored) rng3
  end.

(** [n_in] is a [const BigInt&]: the loops work on the copy [n]. *)
Fixpoint factorize (fuel : nat) (n_in : Z) (rng : RandomNumberGenerator)
  : outcome (list Z * RandomNumberGenerator) :=
  match fuel with
  | O => Running
  | S fuel' =>
      let n := n_in in
      ' (n1, factors) <- remove_small_factors fuel' n ;;
      factorize_loop (factorize fuel') fuel' n1 factors rng
  end.

(** *** [go] *)

(** The line [go] writes: the argument, a colon, and every factor followed
    by a blank. *)
Definition render (n : Z) (factors : list Z) : string :=
  (dec n ++ ": " ++ concat EmptyString (map (fun f => dec f ++ " ") factors) ++ newline)%string.

(** [n] is the integer parsed from the argument of the command. *)
Definition go (fuel : nat) (n : Z) (rng : RandomNumberGenerator)
  : outcome (string * RandomNumberGenerator) :=
  ' (factors, rng1) <- factorize fuel n rng ;;
  let factors := sort factors in
  Returned (render n factors, rng1).

End Commands.

End Factor.

(** ** [factor], with the integers where the source keeps them

    [remove_small_factors] takes a [BigInt&] and writes to it, while
    [factorize] and [rho] take a [const BigInt&]; [factorize] hands a
    reference to its local [a_factor] to its recursive call and reads
    [a_factor] again afterwards.  Here the [BigInt] objects live in a
    store and the functions receive their positions, so that a write
    through a reference is seen by whoever holds the same reference. *)

Module ByReference.

(** The [BigInt] objects alive at a point of the run, oldest first; a
    reference is the position of an object. *)
Definition store : Type := list Z.
Definition ref : Type := nat.

Definition read (s : store) (a : ref) : Z := nth a s 0.

(** Assignment through a reference.  (A reference to an object that is
    gone is undefined behaviour in the source; here it writes nothing.) *)
Fixpoint write (s : store) (a : ref) (v : Z) : store :=
  match s, a with
  | [], _ => []
  | _ :: s', O => v :: s'
  | c :: s', S a' => c :: write s' a' v
  end.

(** A declaration [BigInt x = v;]: the new object comes last. *)
Definition declare (s : store) (v : Z) : ref * store := (List.length s, s ++ [v]).

(** The end of the scope of the object at [a]: it is destroyed, with
    whatever was declared after it. *)
Definition leave (s : store) (a : ref) : store := firstn a s.

Section Commands.

Context `{Lib : Botan}.

(** [while(n.is_even()) { factors.push_back(2); n /= 2; }] *)
Fixpoint even_loop (fuel : nat) (n : ref) (factors : list Z) (s : store)
  : outcome (list Z * store) :=
  match fuel with
  | O => Running
  | S fuel' =>
      if Z.even (read s n)
      then even_loop fuel' n (factors ++ [2]) (write s n (read s n / 2))
      else Returned (factors, s)
  end.

(** The [for] loop over the table.  [x] is a local of which no reference
    is taken: [Factor.push_loop] works on its value. *)
Fixpoint table_loop (fuel : nat) (primes : list Z) (n : ref) (factors : list Z) (s : store)
  : outcome (list Z * store) :=
  match primes with
  | [] => Returned (factors, s)
  | prime :: rest =>
      if read s n <? prime then Returned (factors, s)
      else
        let x := gcd (read s n) prime in
        if negb (x =? 1)
        then
          let s1 := write s n (read s n / x) in            (* n /= x *)
          ' factors' <- Factor.push_loop fuel x prime factors ;;
          table_loop fuel rest n factors' s1
        else table_loop fuel rest n factors s
  end.

(** [remove_small_factors(BigInt& n)] *)
Definition remove_small_factors (fuel : nat) (n : ref) (s : store)
  : outcome (list Z * store) :=
  ' (factors, s1) <- even_loop fuel n [] s ;;
  table_loop fuel PRIMES n factors s1.

(** [while(a_factor == 0) { a_factor = rho(n, rng); }]; [rho] takes [n] by
    [const] reference and only reads it. *)
Fixpoint rho_retry (fuel : nat) (n a_factor : ref) (rng : RandomNumberGenerator) (s : store)
  : outcome (store * RandomNumberGenerator) :=
  match fuel with
  | O => Running
  | S fuel' =>
      ' (d, rng1) <- Factor.rho fuel' (read s n) rng ;;
      let s1 := write s a_factor d in
      if read s1 a_factor =? 0 then rho_retry fuel' n a_factor rng1 s1
      else Returned (s1, rng1)
  end.

(** The [while(n != 1)] loop on the local [n] of [factorize]; [self] is
    the recursive call, which receives the reference to [a_factor]. *)
Fixpoint factorize_loop
    (self : ref -> RandomNumberGenerator -> store ->
            outcome (list Z * RandomNumberGenerator * store))
    (fuel : nat) (n : ref) (factors : list Z) (rng : RandomNumberGenerator) (s : store)
  : outcome (list Z * RandomNumberGenerator * store) :=
  match fuel with
  | O => Running
  | S fuel' =>
      if read s n =? 1 then Returned (factors, rng, s)
      else
        let '(is_p, rng1) := is_prime (read s n) rng in
        if is_p then Returned (factors ++ [read s n], rng1, s)
        else
          let '(a_factor, s1) := declare s 0 in             (* BigInt a_factor = 0; *)
          ' (s2, rng2) <- rho_retry fuel' n a_factor rng1 s1 ;;
          ' (rho_factored, rng3, s3) <- self a_factor rng2 s2 ;;
          let s4 := write s3 n (read s3 n / read s3 a_factor) in   (* n /= a_factor; *)
          factorize_loop self fuel' n (factors ++ rho_factored) rng3 (leave s4 a_factor)
  end.

(** [factorize(const BigInt& n_in, rng)]: [BigInt n = n_in;] declares the
    local the loops work on; it is gone when the call returns. *)
Fixpoint factorize (fuel : nat) (n_in : ref) (rng : RandomNumberGenerator) (s : store)
  : outcome (list Z * RandomNumberGenerator * store) :=
  match fuel with
  | O => Running
  | S fuel' =>
      let '(n, s1) := declare s (read s n_in) in
      ' (factors, s2) <- remove_small_factors fuel' n s1 ;;
      ' (factors', rng1, s3) <- factorize_loop (factorize fuel') fuel' n factors rng s2 ;;
      Returned (factors', rng1, leave s3 n)
  end.

(** [go]: [arg] is the integer parsed from the argument; the line is
    written from the object [n] after [factorize] has returned. *)
Definition go (fuel : nat) (arg : Z) (rng : RandomNumberGenerator) (s : store)
  : outcome (string * RandomNumberGenerator * store) :=
  let '(n, s1) := declare s arg in                  (* Botan::BigInt n(get_arg("n")); *)
  ' (factors, rng1, s2) <- factorize fuel n rng s1 ;;
  let factors := sort factors in
  Returned (Factor.render (read s2 n) factors, rng1, leave s2 n).

End Commands.

End ByReference.

(** ** What the small-factor pass computes *)

(** [p] divides [n], as a test. *)
Definition divides_b (n p : Z) : bool := n mod p =? 0.

(** The vector one expects from [remove_small_factors]: a 2 for every
    factor 2 of [n], then the entries of the table, other than 2, that
    divide [n], in the order of the table. *)
Definition small_factors `{Botan} (n : Z) : list Z :=
  repeat 2 (val2 n) ++ filter (fun p => divides_b n p && negb (p =? 2)) PRIMES.

(** Brent's schedule in [rho]: [k] is the power of two just above [i]. *)
Definition brent_schedule (i k : Z) : Prop :=
  exists j, 0 < j /\ k = 2 ^ j /\ 2 ^ (j - 1) <= i < 2 ^ j.

(** ** [gen_prime] *)

Module Gen_Prime.

Section Command.

Context `{Lib : Botan}.

(** [Botan::random_prime(rng, bits)]: its code is in the library. *)
Variable random_prime : RandomNumberGenerator -> Z -> Z * RandomNumberGenerator.

(** [for(size_t i = 0; i != cnt; ++i)
       { p = random_prime(rng(), bits); output() << p << "\n"; }];
    [out] is what has been written so far. *)
Fixpoint loop (fuel : nat) (i cnt bits : Z) (rng : RandomNumberGenerator) (out : string)
  : outcome (string * RandomNumberGenerator) :=
  match fuel with
  | O => Running
  | S fuel' =>
      if negb (i =? cnt)
      then
        let '(p, rng1) := random_prime rng bits in
        loop fuel' (size_t (i + 1)) cnt bits rng1 (out ++ dec p ++ newline)
      else Returned (out, rng)
  end.

(** [bits] and [cnt] are the two [size_t] arguments of the command. *)
Definition go (fuel : nat) (bits cnt : Z) (rng : RandomNumberGenerator)
  : outcome (string * RandomNumberGenerator) :=
  loop fuel 0 cnt bits rng EmptyString.

(** The first [k] values the library hands out from the state [rng], and
    the state after them. *)
Fixpoint draws (k : nat) (bits : Z) (rng : RandomNumberGenerator)
  : list Z * RandomNumberGenerator :=
  match k with
  | O => ([], rng)
  | S k' =>
      let '(p, rng1) := random_prime rng bits in
      let '(ps, rng2) := draws k' bits rng1 in
      (p :: ps, rng2)
  end.

End Command.

End Gen_Prime.

(** ** [probe_providers_of] ([src/lib/utils/scan_name.h]) *)

Module SCAN.

Section Probe.

(** The class [T] of the template, and [T::create(algo_spec, prov)]: a
    null pointer is [None]. *)
Variable T : Type.
Variable create : string -> string -> option T.

(** [for(auto&& prov : possible)
       { auto o = T::create(algo_spec, prov);
         if(o) { providers.push_back(prov); } }] *)
Definition probe_providers_of (algo_spec : string) (possible : list string)
  : list string :=
  fold_left
    (fun providers prov =>
       match create algo_spec prov with
       | Some _ => providers ++ [prov]
       | None => providers
       end)
    possible [].

(** A provider for which [create] does not come back null. *)
Definition available (algo_spec prov : string) : bool :=
  match create algo_spec prov with
  | Some _ => true
  | None => false
  end.

End Probe.

End SCAN.

(** ** A reference library

    Residues modulo [n] for the Montgomery arithmetic, a counter for the
    generator, trial division for the oracle and the odd primes below 64
    for the table. *)

Module Reference.

Definition residue_square (a : Z * Z) : Z * Z := (fst a, (snd a * snd a) mod fst a).
Definition residue_add (a b : Z * Z) : Z * Z := (fst a, (snd a + snd b) mod fst a).
Definition residue_sub (a b : Z * Z) : Z * Z := (fst a, (snd a - snd b) mod fst a).
Definition residue_mul (a b : Z * Z) : Z * Z := (fst a, (snd a * snd b) mod fst a).

Definition counter_integer (g lo hi : Z) : Z * Z := (lo + g mod (hi - lo), g + 1).

Definition odd_primes_below_64 : list Z :=
  [3; 5; 7; 11; 13; 17; 19; 23; 29; 31; 37; 41; 43; 47; 53; 59; 61].

#[export] Instance library : Botan := {|
  size_t_bits := 64;
  RandomNumberGenerator := Z;
  random_integer := counter_integer;
  is_prime := fun n g => (primeb n, g);
  PRIMES := odd_primes_below_64;
  Montgomery_Params := Z;
  Montgomery_Int := Z * Z;
  make_params := fun n => n;
  R1 := fun n => 1 mod n;
  make_int := fun n v _ => (n, v);
  square_this := residue_square;
  add := residue_add;
  sub := residue_sub;
  mul_by := residue_mul;
  value := fun a => snd a mod fst a
|}.

(** A stand-in for [random_prime]: the first prime from the counter on,
    in the upper half of the [bits]-bit numbers. *)
Fixpoint next_prime (fuel : nat) (c : Z) : Z :=
  match fuel with
  | O => c
  | S fuel' => if primeb c then c else next_prime fuel' (c + 1)
  end.

Definition counter_prime (g bits : Z) : Z * Z :=
  (next_prime 64 (2 ^ (bits - 1) + (17 * g) mod 2 ^ (bits - 2)), g + 1).

End Reference.

(** * Properties *)

(** ** Basic facts *)

Lemma bind_Returned {A B} (m : outcome A) (f : A -> outcome B) (b : B) :
  bind m f = Returned b -> exists a, m = Returned a /\ f a = Returned b.
Proof.
  destruct m as [a | e | ]; simpl; intros H; try discriminate.
  exists a; split; [reflexivity | exact H].
Qed.

(** In [H : bind m f = Returned b], name the value [r] that [m] returned. *)
Ltac unbind H r Hr := apply bind_Returned in H; destruct H as [r [Hr H]].

Lemma product_app (l1 l2 : list Z) : product (l1 ++ l2) = product l1 * product l2.
Proof.
  induction l1 as [| a l1 IH]; simpl.
  - destruct (product l2); reflexivity.
  - rewrite IH. ring.
Qed.

Lemma product_repeat (a : Z) (k : nat) : product (repeat a k) = a ^ Z.of_nat k.
Proof.
  induction k as [| k IH].
  - reflexivity.
  - rewrite Nat2Z.inj_succ, Z.pow_succ_r by lia. simpl. rewrite IH. reflexivity.
Qed.

Lemma In_divides_product (l : list Z) (a : Z) : In a l -> (a | product l).
Proof.
  induction l as [| b l IH]; simpl; intros H.
  - contradiction.
  - destruct H as [-> | H].
    + apply Z.divide_factor_l.
    + apply Z.divide_mul_r. auto.
Qed.

Lemma no_divisor_from_spec (count : nat) (d n : Z) :
  0 < d ->
  (no_divisor_from d count n = true <->
   forall e, d <= e < d + Z.of_nat count -> ~ (e | n)).
Proof.
  revert d. induction count as [| c IH]; intros d Hd.
  - simpl. split; [intros _ e He; lia | reflexivity].
  - cbn [no_divisor_from]. rewrite andb_true_iff, negb_true_iff, Z.eqb_neq.
    rewrite (IH (d + 1)) by lia. split.
    + intros [H1 H2] e He Hdiv.
      destruct (Z.eq_dec e d) as [-> | Hne].
      * apply H1. apply Z.mod_divide; [lia | exact Hdiv].
      * apply (H2 e); [lia | exact Hdiv].
    + intros H. split.
      * intros Hm. apply (H d); [lia |]. apply Z.mod_divide; [lia | exact Hm].
      * intros e He. apply H. lia.
Qed.

Lemma primeb_spec (n : Z) : primeb n = true <-> Z.prime n.
Proof.
  unfold primeb, Z.prime. rewrite andb_true_iff, Z.ltb_lt.
  split.
  - intros [H1 H2]. split; [exact H1 |].
    intros e He. apply (proj1 (no_divisor_from_spec _ 2 n ltac:(lia)) H2). lia.
  - intros [H1 H2]. split; [exact H1 |].
    apply no_divisor_from_spec; [lia |]. intros e He. apply H2. lia.
Qed.

(** ** Rho search *)

Section RhoProperties.

Context `{Lib : Botan}.

Lemma gcd_proper_divisor (a n d : Z) :
  1 < n -> gcd a n = d -> d <> n -> d <> 1 -> 1 < d < n /\ (d | n).
Proof.
  unfold gcd. intros Hn Hd Hdn Hd1.
  assert (Hdiv : (d | n)) by (rewrite <- Hd; apply Z.gcd_divide_r).
  assert (Hpos : 0 <= d) by (rewrite <- Hd; apply Z.gcd_nonneg).
  assert (Hnz : d <> 0).
  { intros ->. apply Z.divide_0_l in Hdiv. lia. }
  assert (Hle : d <= n) by (apply Z.divide_pos_le; [lia | exact Hdiv]).
  split; [lia | exact Hdiv].
Qed.

(** A turn that returns hands back a proper divisor. *)
Lemma rho_iteration_return (n : Z) (one x y z : Montgomery_Int) (i k d : Z) :
  1 < n ->
  Factor.rho_iteration n one x y z i k = Factor.Rho_return d ->
  1 < d < n /\ (d | n).
Proof.
  intros Hn. unfold Factor.rho_iteration, Factor.rho_next.
  set (i1 := size_t (i + 1)).
  set (x1 := add (square_this x) one).
  set (z1 := mul_by z (sub y x1)).
  destruct (0xFFFF0000 <=? i1); [discriminate |].
  destruct ((i1 =? k) || (i1 mod 128 =? 0)).
  - destruct (gcd (value z1) n =? n) eqn:En; [discriminate |].
    destruct (gcd (value z1) n =? 1) eqn:E1; simpl.
    + destruct (i1 =? k); discriminate.
    + intros H. injection H as <-.
      apply Z.eqb_neq in En, E1.
      apply (gcd_proper_divisor (value z1)); auto.
  - destruct (i1 =? k); discriminate.
Qed.

(** A turn that goes on has advanced the counter by one, below the cap. *)
Lemma rho_iteration_continue (n : Z) (one x y z x' y' z' : Montgomery_Int)
    (i k i' k' : Z) :
  32 <= size_t_bits ->
  0 <= i < rho_cap ->
  Factor.rho_iteration n one x y z i k = Factor.Rho_continue x' y' z' i' k' ->
  i' = i + 1 /\ i' < rho_cap.
Proof.
  intros Hbits Hi. unfold Factor.rho_iteration, Factor.rho_next.
  assert (Hw : size_t (i + 1) = i + 1).
  { unfold size_t. apply Z.mod_small. unfold rho_cap in Hi.
    pose proof (Z.pow_le_mono_r 2 32 size_t_bits ltac:(lia) Hbits) as Hpow.
    change (2 ^ 32) with 4294967296 in Hpow. lia. }
  rewrite Hw.
  destruct (0xFFFF0000 <=? i + 1) eqn:Ecap; [discriminate |].
  apply Z.leb_gt in Ecap.
  destruct ((i + 1 =? k) || ((i + 1) mod 128 =? 0)).
  - destruct (gcd _ n =? n); [discriminate |].
    destruct (gcd _ n =? 1); simpl; [| discriminate].
    destruct (i + 1 =? k); intros H; injection H as _ _ _ <- _;
      unfold rho_cap; lia.
  - destruct (i + 1 =? k); intros H; injection H as _ _ _ <- _;
      unfold rho_cap; lia.
Qed.

Lemma rho_loop_divisor (fuel : nat) (n : Z) (one x y z : Montgomery_Int) (i k d : Z) :
  1 < n ->
  Factor.rho_loop fuel n one x y z i k = Returned d ->
  d = 0 \/ (1 < d < n /\ (d | n)).
Proof.
  intros Hn. revert x y z i k.
  induction fuel as [| fuel IH]; intros x y z i k; simpl; [discriminate |].
  destruct (Factor.rho_iteration n one x y z i k) as [| d' | x' y' z' i' k'] eqn:Eit.
  - intros H. injection H as <-. left. reflexivity.
  - intros H. injection H as <-. right.
    apply (rho_iteration_return n one x y z i k); assumption.
  - apply IH.
Qed.

Lemma rho_loop_returns (fuel : nat) (n : Z) (one x y z : Montgomery_Int) (i k : Z) :
  32 <= size_t_bits ->
  0 <= i < rho_cap ->
  (Z.to_nat (rho_cap - i) <= fuel)%nat ->
  exists d, Factor.rho_loop fuel n one x y z i k = Returned d.
Proof.
  intros Hbits. revert x y z i k.
  induction fuel as [| fuel IH]; intros x y z i k Hi Hfuel.
  - lia.
  - simpl.
    destruct (Factor.rho_iteration n one x y z i k) as [| d' | x' y' z' i' k'] eqn:Eit.
    + exists 0. reflexivity.
    + exists d'. reflexivity.
    + destruct (rho_iteration_continue _ _ _ _ _ _ _ _ _ _ _ _ Hbits Hi Eit) as [-> Hlt].
      apply IH; lia.
Qed.

Lemma rho_divisor (fuel : nat) (n : Z) (rng rng' : RandomNumberGenerator) (d : Z) :
  1 < n ->
  Factor.rho fuel n rng = Returned (d, rng') ->
  d = 0 \/ (1 < d < n /\ (d | n)).
Proof.
  intros Hn Hrho. unfold Factor.rho in Hrho.
  destruct (random_integer rng 2 (n - 3)) as [x0 rng1].
  unbind Hrho d0 Hloop. injection Hrho as -> _.
  apply rho_loop_divisor in Hloop; [exact Hloop | exact Hn].
Qed.

(** The retry loop of [factorize] only leaves with a proper divisor. *)
Lemma rho_retry_divisor (fuel : nat) (n : Z) (rng rng' : RandomNumberGenerator) (a : Z) :
  1 < n ->
  Factor.rho_retry fuel n rng = Returned (a, rng') ->
  1 < a < n /\ (a | n).
Proof.
  intros Hn. revert rng.
  induction fuel as [| fuel IH]; intros rng; simpl; [discriminate |].
  intros Hrun. unbind Hrun attempt Hrho. destruct attempt as [d rng1].
  destruct (d =? 0) eqn:Ed.
  - apply (IH rng1). exact Hrun.
  - injection Hrun as -> ->. apply Z.eqb_neq in Ed.
    destruct (rho_divisor _ _ _ _ _ Hn Hrho) as [H0 | H]; [contradiction | exact H].
Qed.

(** A batched check that finds [d = n] ends the attempt as failed. *)
Lemma rho_loop_degenerate (fuel : nat) (n : Z) (one x y z : Montgomery_Int) (i k : Z) :
  size_t (i + 1) < rho_cap ->
  (size_t (i + 1) =? k) || (size_t (i + 1) mod 128 =? 0) = true ->
  gcd (value (mul_by z (sub y (add (square_this x) one)))) n = n ->
  Factor.rho_loop (S fuel) n one x y z i k = Returned 0.
Proof.
  intros Hcap Hcheck Hd. simpl. unfold Factor.rho_iteration.
  destruct (0xFFFF0000 <=? size_t (i + 1)) eqn:E.
  - reflexivity.
  - rewrite Hcheck, Hd, Z.eqb_refl. reflexivity.
Qed.

(** C2. Whenever one attempt of [rho] on [n > 1] (in particular on a
    composite [n]) returns something else than the failure value 0, what
    it returns is a divisor [d] of [n] with [1 < d < n]; [d = n] is never
    returned: a turn whose check finds [d = n] ends the attempt with the
    failure value. *)
Theorem rho_returns_proper_divisor
    (fuel : nat) (n : Z) (rng rng' : RandomNumberGenerator) (d : Z) :
  1 < n ->
  Factor.rho fuel n rng = Returned (d, rng') ->
  d <> 0 ->
  (1 < d < n /\ (d | n) /\ d <> n) /\
  (forall fuel' one x y z i k,
     size_t (i + 1) < rho_cap ->
     (size_t (i + 1) =? k) || (size_t (i + 1) mod 128 =? 0) = true ->
     gcd (value (mul_by z (sub y (add (square_this x) one)))) n = n ->
     Factor.rho_loop (S fuel') n one x y z i k = Returned 0).
Proof.
  intros Hn Hrho Hd. split.
  - destruct (rho_divisor fuel n rng rng' d Hn Hrho) as [-> | [Hb Hdiv]];
      [contradiction |].
    repeat split; try lia; exact Hdiv.
  - intros fuel' one x y z i k. apply rho_loop_degenerate.
Qed.

(** At the cap the turn gives up. *)
Lemma rho_iteration_cap (n : Z) (one x y z : Montgomery_Int) (i k : Z) :
  rho_cap <= size_t (i + 1) ->
  Factor.rho_iteration n one x y z i k = Factor.Rho_break.
Proof.
  intros Hcap. unfold Factor.rho_iteration.
  destruct (0xFFFF0000 <=? size_t (i + 1)) eqn:E; [reflexivity |].
  apply Z.leb_gt in E. unfold rho_cap in Hcap. lia.
Qed.

(** C3. One attempt of [rho] always comes to an end.  On every [n > 1]
    (in particular on a composite [n]), where [size_t] has 32 bits or
    more, a budget of [0xFFFF0000] turns of the loop is enough for the
    attempt to return, and what it returns is the failure value 0 or a
    divisor [d] of [n] with [1 < d < n]; a turn that finds the counter at
    [0xFFFF0000] or beyond ends the attempt as failed. *)
Theorem rho_attempt_terminates
    (fuel : nat) (n : Z) (rng : RandomNumberGenerator) :
  32 <= size_t_bits ->
  1 < n ->
  (Z.to_nat rho_cap <= fuel)%nat ->
  (exists d rng',
     Factor.rho fuel n rng = Returned (d, rng') /\
     (d = 0 \/ (1 < d < n /\ (d | n)))) /\
  (forall one x y z i k,
     rho_cap <= size_t (i + 1) ->
     Factor.rho_loop fuel n one x y z i k = Returned 0).
Proof.
  intros Hbits Hn Hfuel. split.
  - unfold Factor.rho.
    destruct (random_integer rng 2 (n - 3)) as [x0 rng1].
    set (one := make_int (make_params n) (R1 (make_params n)) false).
    set (x := make_int (make_params n) x0 false).
    destruct (rho_loop_returns fuel n one x x one 1 2 Hbits) as [d Hd].
    + unfold rho_cap. lia.
    + unfold rho_cap in *. lia.
    + exists d, rng1. rewrite Hd. simpl. split; [reflexivity |].
      apply (rho_loop_divisor fuel n one x x one 1 2); assumption.
  - intros one x y z i k Hcap.
    destruct fuel as [| fuel]; [unfold rho_cap in Hfuel; lia |].
    simpl. rewrite rho_iteration_cap by exact Hcap. reflexivity.
Qed.

End RhoProperties.

(** ** Small-factor removal *)

Lemma val2_odd (n : Z) : Z.even n = false -> val2 n = O.
Proof.
  destruct n as [| p | p]; try reflexivity; destruct p; simpl; congruence.
Qed.

Lemma val2_even (n : Z) :
  Z.even n = true -> n <> 0 -> n = 2 * (n / 2) /\ n / 2 <> 0 /\ val2 n = S (val2 (n / 2)).
Proof.
  intros He Hn.
  destruct n as [| p | p]; [congruence | |]; destruct p as [q | q |];
    simpl in He; try discriminate.
  - assert (Hq : Z.pos q~0 / 2 = Z.pos q).
    { rewrite Pos2Z.inj_xO, Z.mul_comm. apply Z.div_mul. lia. }
    rewrite Hq. repeat split; lia.
  - assert (Hq : Z.neg q~0 / 2 = Z.neg q).
    { rewrite Pos2Z.neg_xO, Z.mul_comm. apply Z.div_mul. lia. }
    rewrite Hq. repeat split; lia.
Qed.

Lemma coprime_distinct_primes (p q : Z) :
  Z.prime p -> Z.prime q -> p <> q -> Z.coprime p q.
Proof.
  intros Hp Hq Hne. apply Z.coprime_prime_l; [exact Hp |].
  intros Hdiv. apply Hne. apply Z.divide_prime_prime; assumption.
Qed.

Lemma gcd_prime_cases (n q : Z) :
  Z.prime q -> gcd n q = 1 \/ (gcd n q = q /\ (q | n)).
Proof.
  intros Hq. unfold gcd.
  pose proof (Z.prime_ge_2 q Hq) as Hge.
  pose proof (Z.gcd_nonneg n q) as Hnn.
  destruct (Z.divide_prime_r (Z.gcd n q) q Hq (Z.gcd_divide_r n q))
    as [H | [H | [H | H]]]; try lia.
  right. split; [exact H |]. rewrite <- H at 1. apply Z.gcd_divide_l.
Qed.

Lemma prime_divides_product (q : Z) (l : list Z) :
  Z.prime q -> Forall Z.prime l -> (q | product l) -> In q l.
Proof.
  intros Hq Hl. induction Hl as [| a l Ha Hl IH]; simpl; intros Hdiv.
  - apply Z.divide_1_r in Hdiv. pose proof (Z.prime_ge_2 q Hq). lia.
  - apply Z.divide_prime_mul in Hdiv; [| exact Hq].
    destruct Hdiv as [Hdiv | Hdiv].
    + left. symmetry. apply Z.divide_prime_prime; assumption.
    + right. apply IH. exact Hdiv.
Qed.

Lemma coprime_product (q : Z) (l : list Z) :
  Z.prime q -> Forall Z.prime l -> ~ In q l -> Z.coprime q (product l).
Proof.
  intros Hq Hl. induction Hl as [| a l Ha Hl IH]; simpl; intros Hnin.
  - apply Z.coprime_1_r.
  - apply Z.coprime_mul_r.
    + apply coprime_distinct_primes; [exact Hq | exact Ha |].
      intros ->. apply Hnin. left. reflexivity.
    + apply IH. intros Hin. apply Hnin. right. exact Hin.
Qed.

Section RemoveSmallFactors.

Context `{Lib : Botan}.

(** The even loop never leaves 0. *)
Lemma even_loop_spec (fuel : nat) (n : Z) (factors : list Z) (n' : Z) (factors' : list Z) :
  n <> 0 ->
  Factor.even_loop fuel n factors = Returned (n', factors') ->
  factors' = factors ++ repeat 2 (val2 n) /\
  n = n' * 2 ^ Z.of_nat (val2 n) /\
  Z.even n' = false.
Proof.
  revert n factors.
  induction fuel as [| fuel IH]; intros n factors Hn; simpl; [discriminate |].
  destruct (Z.even n) eqn:He.
  - destruct (val2_even n He Hn) as [Hhalf [Hnz Hv]].
    intros Hrun. destruct (IH _ _ Hnz Hrun) as [HF [Hprod Hodd]].
    rewrite Hv. repeat split.
    + rewrite HF, <- app_assoc. reflexivity.
    + rewrite Nat2Z.inj_succ, Z.pow_succ_r by lia. lia.
    + exact Hodd.
  - intros H. injection H as <- <-.
    rewrite (val2_odd n He). simpl. rewrite app_nil_r.
    repeat split; [lia | exact He].
Qed.

Lemma even_loop_returns (fuel : nat) (n : Z) (factors : list Z) :
  n <> 0 -> (val2 n < fuel)%nat ->
  exists r, Factor.even_loop fuel n factors = Returned r.
Proof.
  revert n factors.
  induction fuel as [| fuel IH]; intros n factors Hn Hfuel; [lia |].
  simpl. destruct (Z.even n) eqn:He.
  - destruct (val2_even n He Hn) as [_ [Hnz Hv]]. apply IH; [exact Hnz | lia].
  - eexists. reflexivity.
Qed.

(** On a prime entry [q] of the table that divides [n], the inner loop
    pushes [q] once. *)
Lemma push_loop_prime (fuel : nat) (q : Z) (factors : list Z) :
  Z.prime q ->
  Factor.push_loop fuel q q factors =
  if (2 <=? fuel)%nat then Returned (factors ++ [q]) else Running.
Proof.
  intros Hq. pose proof (Z.prime_ge_2 q Hq) as Hge.
  destruct fuel as [| [| fuel]]; simpl; try reflexivity.
  - destruct (q =? 1) eqn:E; [apply Z.eqb_eq in E; lia | reflexivity].
  - destruct (q =? 1) eqn:E; [apply Z.eqb_eq in E; lia |].
    rewrite Z.div_same by lia. reflexivity.
Qed.

(** One entry of the table: stop, skip, or divide once and push once. *)
Lemma table_loop_cons (fuel : nat) (q : Z) (rest : list Z) (n : Z) (factors : list Z) :
  Z.prime q ->
  Factor.table_loop fuel (q :: rest) n factors =
  if n <? q then Returned (n, factors)
  else if gcd n q =? 1 then Factor.table_loop fuel rest n factors
  else if (2 <=? fuel)%nat then Factor.table_loop fuel rest (n / q) (factors ++ [q])
  else Running.
Proof.
  intros Hq. pose proof (Z.prime_ge_2 q Hq) as Hge. simpl.
  destruct (n <? q); [reflexivity |].
  destruct (gcd_prime_cases n q Hq) as [H1 | [Hgq _]].
  - rewrite H1. reflexivity.
  - rewrite Hgq. destruct (q =? 1) eqn:E; [apply Z.eqb_eq in E; lia |].
    simpl. rewrite push_loop_prime by exact Hq.
    destruct fuel as [| [| fuel]]; reflexivity.
Qed.

Lemma table_loop_returns (fuel : nat) (l : list Z) (n : Z) (factors : list Z) :
  Forall Z.prime l -> (2 <= fuel)%nat ->
  exists r, Factor.table_loop fuel l n factors = Returned r.
Proof.
  intros Hl Hfuel. revert n factors.
  induction Hl as [| q rest Hq Hrest IH]; intros n factors.
  - eexists. reflexivity.
  - rewrite table_loop_cons by exact Hq.
    destruct (n <? q); [eexists; reflexivity |].
    destruct (gcd n q =? 1); [apply IH |].
    destruct (2 <=? fuel)%nat eqn:E; [apply IH |].
    apply Nat.leb_gt in E. lia.
Qed.

(** What a run over (a rest of) the table does to [n] and to the vector:
    the entries pushed are [G]. *)
Lemma table_loop_spec (l : list Z) :
  forall (fuel : nat) (n : Z) (factors : list Z) (n' : Z) (factors' : list Z),
  Forall Z.prime l -> 0 < n ->
  Factor.table_loop fuel l n factors = Returned (n', factors') ->
  exists G,
    factors' = factors ++ G /\ n = n' * product G /\ 0 < n' /\ incl G l /\
    (StronglySorted Z.lt l ->
     NoDup G /\
     forall p, In p l -> (p | n) ->
               In p G /\ forall k, 0 <= k -> (p ^ (k + 1) | n) -> (p ^ k | n')).
Proof.
  induction l as [| q rest IH]; intros fuel n factors n' factors' Hl Hn.
  - simpl. intros H. injection H as <- <-. exists []. rewrite app_nil_r.
    split; [reflexivity |]. split; [simpl; lia |]. split; [exact Hn |].
    split; [apply incl_refl |].
    intros _. split; [constructor | contradiction].
  - pose proof (Forall_inv Hl) as Hq. pose proof (Forall_inv_tail Hl) as Hrest.
    pose proof (Z.prime_ge_2 q Hq) as Hge.
    rewrite table_loop_cons by exact Hq.
    destruct (n <? q) eqn:Elt.
    { (* the scan stops *)
      apply Z.ltb_lt in Elt.
      intros H. injection H as <- <-. exists []. rewrite app_nil_r.
      split; [reflexivity |]. split; [simpl; lia |]. split; [exact Hn |].
      split; [apply incl_nil_l |].
      intros Hs. split; [constructor |].
      intros p Hin Hpn. exfalso.
      assert (q <= p).
      { apply StronglySorted_inv in Hs. destruct Hs as [_ Hall].
        destruct Hin as [-> | Hin]; [lia |].
        rewrite Forall_forall in Hall. specialize (Hall p Hin). lia. }
      apply Z.divide_pos_le in Hpn; lia. }
    apply Z.ltb_ge in Elt.
    destruct (gcd n q =? 1) eqn:Eg.
    { (* [q] does not divide [n] *)
      apply Z.eqb_eq in Eg.
      intros Hrun. destruct (IH _ _ _ _ _ Hrest Hn Hrun)
        as [G [HF [Hprod [Hpos [Hincl Hsorted]]]]].
      exists G.
      split; [exact HF |]. split; [exact Hprod |]. split; [exact Hpos |].
      split; [apply incl_tl; exact Hincl |].
      intros Hs. apply StronglySorted_inv in Hs. destruct Hs as [Hs _].
      destruct (Hsorted Hs) as [Hnodup Hp].
      split; [exact Hnodup |].
      intros p [<- | Hin] Hpn.
      - exfalso. unfold gcd in Eg.
        apply Z.divide_gcd_iff in Hpn; [| lia].
        rewrite Z.gcd_comm in Hpn. lia.
      - apply (Hp p Hin Hpn). }
    (* [q] divides [n] *)
    apply Z.eqb_neq in Eg.
    destruct (gcd_prime_cases n q Hq) as [H1 | [_ Hdiv]]; [contradiction |].
    destruct (2 <=? fuel)%nat; [| discriminate].
    destruct Hdiv as [c Hc].
    assert (Hquot : n / q = c) by (rewrite Hc; apply Z.div_mul; lia).
    rewrite Hquot.
    assert (Hcpos : 0 < c) by nia.
    intros Hrun. destruct (IH _ _ _ _ _ Hrest Hcpos Hrun)
      as [G [HF [Hprod [Hpos [Hincl Hsorted]]]]].
    exists (q :: G). split; [| split; [| split; [| split]]].
    + rewrite HF, <- app_assoc. reflexivity.
    + simpl. rewrite Hc, Hprod. ring.
    + exact Hpos.
    + intros a [<- | Ha]; [left; reflexivity | right; apply Hincl; exact Ha].
    + intros Hs. apply StronglySorted_inv in Hs. destruct Hs as [Hs Hall].
      rewrite Forall_forall in Hall.
      destruct (Hsorted Hs) as [Hnodup Hp].
      assert (HqG : ~ In q G).
      { intros Hin. apply Hincl in Hin. specialize (Hall q Hin). lia. }
      split; [constructor; assumption |].
      intros p Hin Hpn.
      assert (HGprime : Forall Z.prime G).
      { rewrite Forall_forall in *. intros a Ha. apply Hrest, Hincl, Ha. }
      destruct Hin as [<- | Hin].
      * split; [left; reflexivity |].
        intros k Hk Hsq.
        rewrite Hc, Z.pow_add_r, Z.pow_1_r in Hsq by lia.
        apply Z.mul_divide_cancel_r in Hsq; [| lia].
        rewrite Hprod, Z.mul_comm in Hsq.
        apply (Z.gauss _ _ _ Hsq).
        apply Z.coprime_pow_l; [exact Hk |].
        apply coprime_product; assumption.
      * assert (Hpprime : Z.prime p) by (rewrite Forall_forall in Hrest; auto).
        assert (Hcop : Z.coprime p q).
        { apply coprime_distinct_primes; try assumption.
          specialize (Hall p Hin). lia. }
        assert (Hpc : (p | c)).
        { rewrite Hc, (Z.mul_comm c q) in Hpn. apply (Z.gauss p q c); assumption. }
        destruct (Hp p Hin Hpc) as [HinG Hsq].
        split; [right; exact HinG |].
        intros k Hk Hpp. apply (Hsq k Hk).
        rewrite Hc, (Z.mul_comm c q) in Hpp.
        apply (Z.gauss _ q c); [exact Hpp |].
        apply Z.coprime_pow_l; [lia | exact Hcop].
Qed.

Lemma remove_small_factors_returns (fuel : nat) (n : Z) :
  table_of_primes -> n <> 0 -> (val2 n + 2 <= fuel)%nat ->
  exists r, Factor.remove_small_factors fuel n = Returned r.
Proof.
  intros Htab Hn Hfuel. unfold Factor.remove_small_factors.
  destruct (even_loop_returns fuel n [] Hn ltac:(lia)) as [[n1 factors] Heven].
  rewrite Heven. simpl. apply table_loop_returns; [exact Htab | lia].
Qed.

(** The vector returned is the twos of the even loop followed by the
    entries [G] of the table that were pushed. *)
Lemma remove_small_factors_spec (fuel : nat) (n n' : Z) (factors : list Z) :
  table_of_primes -> 0 < n ->
  Factor.remove_small_factors fuel n = Returned (n', factors) ->
  exists G,
    factors = repeat 2 (val2 n) ++ G /\
    n = n' * 2 ^ Z.of_nat (val2 n) * product G /\
    0 < n' /\ Z.even n' = false /\ incl G PRIMES /\ ~ In 2 G /\
    (table_ascending ->
     NoDup G /\
     forall p, In p PRIMES -> p <> 2 -> (p | n) ->
               In p G /\ forall k, 0 <= k -> (p ^ (k + 1) | n) -> (p ^ k | n')).
Proof.
  intros Htab Hn Hrun. unfold Factor.remove_small_factors in Hrun.
  unbind Hrun even Heven. destruct even as [n1 F1]. rename Hrun into Htable.
  apply even_loop_spec in Heven; [| lia].
  destruct Heven as [HF1 [Hn1 Hodd1]]. simpl in HF1.
  assert (Hpow : 0 < 2 ^ Z.of_nat (val2 n)) by (apply Z.pow_pos_nonneg; lia).
  assert (Hn1pos : 0 < n1) by nia.
  apply table_loop_spec in Htable; [| exact Htab | exact Hn1pos].
  destruct Htable as [G [HF [Hprod [Hpos [Hincl Hsorted]]]]].
  assert (Hodd' : Z.even n' = false /\ Z.even (product G) = false).
  { rewrite Hprod, Z.even_mul in Hodd1. apply orb_false_iff in Hodd1. exact Hodd1. }
  exists G.
  split; [rewrite HF, HF1; reflexivity |].
  split; [rewrite Hprod in Hn1; rewrite Hn1 at 1; ring |].
  split; [exact Hpos |].
  split; [apply Hodd' |].
  split; [exact Hincl |].
  split.
  { intros Hin. apply In_divides_product in Hin. destruct Hin as [c Hc].
    destruct Hodd' as [_ HoddG]. rewrite Hc, Z.even_mul in HoddG.
    apply orb_false_iff in HoddG. destruct HoddG as [_ H2]. discriminate. }
  intros Hasc. destruct (Hsorted Hasc) as [Hnodup Hp].
  split; [exact Hnodup |].
  intros p Hin Hp2 Hpn.
  assert (Hpprime : Z.prime p).
  { unfold table_of_primes in Htab. rewrite Forall_forall in Htab. auto. }
  assert (Hcop : Z.coprime p (2 ^ Z.of_nat (val2 n))).
  { apply Z.coprime_pow_r; [lia |].
    apply coprime_distinct_primes; [exact Hpprime | exact Z.prime_2 | exact Hp2]. }
  assert (Hpn1 : (p | n1)).
  { rewrite Hn1, (Z.mul_comm n1) in Hpn. apply (Z.gauss _ _ _ Hpn Hcop). }
  destruct (Hp p Hin Hpn1) as [HinG Hsq].
  split; [exact HinG |].
  intros k Hk Hpp. apply (Hsq k Hk).
  rewrite Hn1, (Z.mul_comm n1) in Hpp. apply (Z.gauss _ _ _ Hpp).
  apply Z.coprime_pow_l; [lia | exact Hcop].
Qed.

(** C9. Product invariant of [remove_small_factors]: for every [n > 0],
    when the call leaves [n'] in its argument and returns [F], the
    original [n] is [n'] times the product of [F], and every entry of [F]
    is 2 or an entry of the table and divides [n]; the call returns once
    the budget covers the twos of [n] and two more steps. *)
Theorem remove_small_factors_product (n : Z) :
  table_of_primes -> 0 < n ->
  (forall fuel n' F,
     Factor.remove_small_factors fuel n = Returned (n', F) ->
     n = n' * product F /\
     Forall (fun f => f = 2 \/ In f PRIMES) F /\
     Forall (fun f => (f | n)) F) /\
  (forall fuel, (val2 n + 2 <= fuel)%nat ->
     exists n' F, Factor.remove_small_factors fuel n = Returned (n', F)).
Proof.
  intros Htab Hn. split.
  - intros fuel n' F Hrun.
    destruct (remove_small_factors_spec fuel n n' F Htab Hn Hrun)
      as [G [HF [Hprod [_ [_ [Hincl _]]]]]].
    assert (HprodF : n = n' * product F).
    { rewrite HF, product_app, product_repeat. rewrite Hprod at 1. ring. }
    split; [exact HprodF |]. split.
    + rewrite HF. apply Forall_app. split.
      * apply Forall_forall. intros f Hf. left. apply (repeat_spec _ _ _ Hf).
      * apply Forall_forall. intros f Hf. right. apply Hincl, Hf.
    + apply Forall_forall. intros f Hf.
      rewrite HprodF. apply Z.divide_mul_r. apply In_divides_product, Hf.
  - intros fuel Hfuel.
    destruct (remove_small_factors_returns fuel n Htab ltac:(lia) Hfuel) as [[n' F] Hrun].
    exists n', F. exact Hrun.
Qed.


End RemoveSmallFactors.

(** ** The orchestrator *)


Lemma odd_divisor (n a : Z) :
  Z.even n = false -> (a | n) -> a <> 0 ->
  Z.even a = false /\ Z.even (n / a) = false /\ n = a * (n / a).
Proof.
  intros Hodd [c Hc] Ha.
  assert (Hq : n / a = c) by (rewrite Hc; apply Z.div_mul; exact Ha).
  rewrite Hq. rewrite Hc, Z.even_mul in Hodd. apply orb_false_iff in Hodd.
  destruct Hodd as [H1 H2]. repeat split; [exact H2 | exact H1 | lia].
Qed.

Section Factorize.

Context `{Lib : Botan}.

Hypothesis table_ok : table_of_primes.

Lemma factorize_loop_sound
    (self : Z -> RandomNumberGenerator -> outcome (list Z * RandomNumberGenerator)) :
  (forall a g fs g', 0 < a -> self a g = Returned (fs, g') -> factorization_of a fs) ->
  forall fuel n factors rng fs rng',
    0 < n -> Z.even n = false ->
    Factor.factorize_loop self fuel n factors rng = Returned (fs, rng') ->
    exists R, fs = factors ++ R /\ factorization_of n R.
Proof.
  intros Hself.
  induction fuel as [| fuel IH]; intros n factors rng fs rng' Hn Hodd;
    simpl; [discriminate |].
  destruct (n =? 1) eqn:E1.
  - apply Z.eqb_eq in E1. subst n.
    intros H. injection H as <- <-. exists []. rewrite app_nil_r.
    split; [reflexivity |]. repeat split. intros _. constructor.
  - apply Z.eqb_neq in E1.
    destruct (is_prime n rng) as [is_p rng1] eqn:Eoracle.
    destruct is_p.
    + intros H. injection H as <- <-. exists [n].
      split; [reflexivity |]. split; [simpl; lia |]. split.
      * rewrite (val2_odd n Hodd). simpl.
        destruct (Z.eq_dec n 2) as [-> | _]; [discriminate | reflexivity].
      * intros Hsound. constructor; [| constructor].
        apply (Hsound n rng). rewrite Eoracle. reflexivity.
    + intros Hrun.
      unbind Hrun retry Hretry. destruct retry as [a_factor rng2].
      unbind Hrun rec Hrec. destruct rec as [rho_factored rng3].
      assert (Hn1 : 1 < n) by lia.
      destruct (rho_retry_divisor _ _ _ _ _ Hn1 Hretry) as [Ha Hdiv].
      destruct (odd_divisor n a_factor Hodd Hdiv ltac:(lia)) as [Hodda [Hoddq Hnq]].
      assert (Hq : 0 < n / a_factor) by nia.
      assert (Hapos : 0 < a_factor) by lia.
      destruct (Hself _ _ _ _ Hapos Hrec) as [Hpa [Hca Hsa]].
      destruct (IH _ _ _ _ _ Hq Hoddq Hrun) as [R [Hfs [Hpr [Hcr Hsr]]]].
      exists (rho_factored ++ R).
      split; [rewrite Hfs, app_assoc; reflexivity |].
      split; [rewrite product_app, Hpa, Hpr; lia |]. split.
      * rewrite count_occ_app, Hca, Hcr.
        rewrite (val2_odd _ Hodd), (val2_odd _ Hodda), (val2_odd _ Hoddq). reflexivity.
      * intros Hsound. apply Forall_app. split; auto.
Qed.

Lemma factorize_sound (fuel : nat) :
  forall n rng fs rng',
    0 < n ->
    Factor.factorize fuel n rng = Returned (fs, rng') ->
    factorization_of n fs.
Proof.
  induction fuel as [| fuel IH]; intros n rng fs rng' Hn; simpl; [discriminate |].
  intros Hrun. unbind Hrun small Hsmall. destruct small as [n1 factors].
  rename Hrun into Hloop.
  destruct (remove_small_factors_spec _ _ _ _ table_ok Hn Hsmall)
    as [G [HF [Hprod [Hn1 [Hodd1 [Hincl [H2G _]]]]]]].
  destruct (factorize_loop_sound _ IH _ _ _ _ _ _ Hn1 Hodd1 Hloop)
    as [R [Hfs [Hpr [Hcr Hsr]]]].
  split; [| split].
  - rewrite Hfs, HF, !product_app, product_repeat, Hpr.
    transitivity (n1 * 2 ^ Z.of_nat (val2 n) * product G); [ring | symmetry; exact Hprod].
  - rewrite Hfs, HF, !count_occ_app, Hcr, (val2_odd _ Hodd1).
    rewrite count_occ_repeat_eq by reflexivity.
    apply (count_occ_not_In Z.eq_dec) in H2G. rewrite H2G. lia.
  - intros Hsound. rewrite Hfs, HF. apply Forall_app. split; [apply Forall_app; split |].
    + apply Forall_forall. intros f Hf. apply repeat_spec in Hf. subst f.
      exact Z.prime_2.
    + apply Forall_forall. intros f Hf.
      unfold table_of_primes in table_ok. rewrite Forall_forall in table_ok.
      apply table_ok, Hincl, Hf.
    + apply Hsr, Hsound.
Qed.

(** X13. Whenever [factorize] returns a vector for [n > 1], with an
    oracle that is never wrong, that vector has product [n], and each of
    its entries is prime and accepted by the oracle. *)
Theorem factorize_round_trip
    (fuel : nat) (n : Z) (rng rng' : RandomNumberGenerator) (fs : list Z) :
  oracle_exact -> 1 < n ->
  Factor.factorize fuel n rng = Returned (fs, rng') ->
  product fs = n /\
  Forall (fun p => Z.prime p /\ forall g, fst (is_prime p g) = true) fs.
Proof.
  intros Horacle Hn Hrun.
  destruct (factorize_sound fuel n rng fs rng' ltac:(lia) Hrun) as [Hprod [_ Hprimes]].
  split; [exact Hprod |].
  assert (Hall : Forall Z.prime fs).
  { apply Hprimes. intros m g Hm. apply (Horacle m g). exact Hm. }
  rewrite Forall_forall in *. intros p Hp. split; [auto |].
  intros g. apply (Horacle p g). auto.
Qed.


Lemma table_loop_one (fuel : nat) (l : list Z) (factors : list Z) :
  Forall Z.prime l -> Factor.table_loop fuel l 1 factors = Returned (1, factors).
Proof.
  intros Hl. destruct Hl as [| q rest Hq _]; [reflexivity |].
  pose proof (Z.prime_ge_2 q Hq) as Hge. simpl.
  destruct (1 <? q) eqn:E; [reflexivity | apply Z.ltb_ge in E; lia].
Qed.

(** The scan reaches a prime that is in the table, takes it out and
    stops at the next entry. *)
Lemma table_loop_hits (fuel : nat) (p : Z) (l : list Z) (factors : list Z) :
  (2 <= fuel)%nat -> Forall Z.prime l -> StronglySorted Z.lt l -> In p l ->
  Factor.table_loop fuel l p factors = Returned (1, factors ++ [p]).
Proof.
  intros Hfuel Hl Hs Hin.
  assert (Hp : Z.prime p) by (rewrite Forall_forall in Hl; auto).
  pose proof (Z.prime_ge_2 p Hp) as Hpge.
  induction l as [| q rest IH]; [contradiction |].
  pose proof (Forall_inv Hl) as Hq. pose proof (Forall_inv_tail Hl) as Hrest.
  apply StronglySorted_inv in Hs. destruct Hs as [Hs Hall].
  rewrite table_loop_cons by exact Hq.
  destruct Hin as [-> | Hin].
  - rewrite Z.ltb_irrefl. unfold gcd. rewrite Z.gcd_diag, Z.abs_eq by lia.
    destruct (p =? 1) eqn:E; [apply Z.eqb_eq in E; lia |].
    destruct (2 <=? fuel)%nat eqn:E2; [| apply Nat.leb_gt in E2; lia].
    rewrite Z.div_same by lia. apply table_loop_one. exact Hrest.
  - rewrite Forall_forall in Hall. pose proof (Hall p Hin) as Hlt.
    destruct (p <? q) eqn:E; [apply Z.ltb_lt in E; lia |].
    assert (Hcop : gcd p q = 1).
    { apply coprime_distinct_primes; [exact Hp | exact Hq | lia]. }
    rewrite Hcop. simpl. apply IH; assumption.
Qed.

(** On 1 there is nothing to do. *)
Lemma factorize_one (fuel : nat) (rng : RandomNumberGenerator) :
  (2 <= fuel)%nat -> Factor.factorize fuel 1 rng = Returned ([], rng).
Proof.
  intros Hfuel. destruct fuel as [| [| fuel]]; try lia.
  cbn [Factor.factorize]. unfold Factor.remove_small_factors.
  cbn [Factor.even_loop Z.even bind].
  rewrite table_loop_one by exact table_ok. reflexivity.
Qed.

(** C7. For an [n] that is an entry of the table, [factorize] returns
    exactly the vector [[n]] (a budget of four steps is enough). *)
Theorem factorize_table_prime
    (fuel : nat) (n : Z) (rng : RandomNumberGenerator) :
  table_ascending -> In n PRIMES -> (4 <= fuel)%nat ->
  Factor.factorize fuel n rng = Returned ([n], rng).
Proof.
  intros Hasc Hin Hfuel.
  assert (Hp : Z.prime n).
  { unfold table_of_primes in table_ok. rewrite Forall_forall in table_ok. auto. }
  destruct fuel as [| [| [| fuel]]]; try lia.
  cbn [Factor.factorize]. unfold Factor.remove_small_factors.
  destruct (Z.even n) eqn:He.
  - (* the table holds 2 *)
    assert (n = 2).
    { symmetry. apply Z.divide_prime_prime; [exact Z.prime_2 | exact Hp |].
      apply Z.even_spec in He. destruct He as [c Hc]. exists c. lia. }
    subst n. cbn [Factor.even_loop Z.even bind]. change (2 / 2) with 1.
    cbn [Factor.even_loop Z.even bind app].
    rewrite table_loop_one by exact table_ok. reflexivity.
  - cbn [Factor.even_loop bind]. rewrite He. cbn [bind].
    rewrite (table_loop_hits _ n PRIMES []); try assumption; [| lia].
    reflexivity.
Qed.

End Factorize.

(** ** More budget, same result

    A call that has returned within a budget returns the same value
    within any larger one. *)

Section FuelMonotone.

Context `{Lib : Botan}.

Lemma even_loop_mono (fuel fuel' : nat) (n : Z) (factors : list Z) r :
  Factor.even_loop fuel n factors = Returned r -> (fuel <= fuel')%nat ->
  Factor.even_loop fuel' n factors = Returned r.
Proof.
  revert fuel' n factors.
  induction fuel as [| fuel IH]; intros fuel' n factors; simpl; [discriminate |].
  intros Hrun Hle. destruct fuel' as [| fuel']; [lia |]. simpl.
  destruct (Z.even n); [apply IH; [exact Hrun | lia] | exact Hrun].
Qed.

Lemma push_loop_mono (fuel fuel' : nat) (x q : Z) (factors : list Z) r :
  Factor.push_loop fuel x q factors = Returned r -> (fuel <= fuel')%nat ->
  Factor.push_loop fuel' x q factors = Returned r.
Proof.
  revert fuel' x factors.
  induction fuel as [| fuel IH]; intros fuel' x factors; simpl; [discriminate |].
  intros Hrun Hle. destruct fuel' as [| fuel']; [lia |]. simpl.
  destruct (x =? 1); [exact Hrun | apply IH; [exact Hrun | lia]].
Qed.

Lemma table_loop_mono (fuel fuel' : nat) (l : list Z) (n : Z) (factors : list Z) r :
  Factor.table_loop fuel l n factors = Returned r -> (fuel <= fuel')%nat ->
  Factor.table_loop fuel' l n factors = Returned r.
Proof.
  intros Hrun Hle. revert n factors Hrun.
  induction l as [| q rest IH]; intros n factors; simpl; [trivial |].
  destruct (n <? q); [trivial |].
  destruct (negb (gcd n q =? 1)); [| apply IH].
  intros Hrun. unbind Hrun factors' Hpush.
  rewrite (push_loop_mono _ _ _ _ _ _ Hpush Hle). simpl. apply IH. exact Hrun.
Qed.

Lemma remove_small_factors_mono (fuel fuel' : nat) (n : Z) r :
  Factor.remove_small_factors fuel n = Returned r -> (fuel <= fuel')%nat ->
  Factor.remove_small_factors fuel' n = Returned r.
Proof.
  unfold Factor.remove_small_factors. intros Hrun Hle.
  unbind Hrun even Heven. destruct even as [n1 factors].
  rewrite (even_loop_mono _ _ _ _ _ Heven Hle). simpl.
  apply (table_loop_mono _ _ _ _ _ _ Hrun Hle).
Qed.

Lemma rho_loop_mono (fuel fuel' : nat) (n : Z) (one x y z : Montgomery_Int) (i k : Z) r :
  Factor.rho_loop fuel n one x y z i k = Returned r -> (fuel <= fuel')%nat ->
  Factor.rho_loop fuel' n one x y z i k = Returned r.
Proof.
  revert fuel' x y z i k.
  induction fuel as [| fuel IH]; intros fuel' x y z i k; simpl; [discriminate |].
  intros Hrun Hle. destruct fuel' as [| fuel']; [lia |]. simpl.
  destruct (Factor.rho_iteration n one x y z i k); try exact Hrun.
  apply IH; [exact Hrun | lia].
Qed.

Lemma rho_mono (fuel fuel' : nat) (n : Z) (rng : RandomNumberGenerator) r :
  Factor.rho fuel n rng = Returned r -> (fuel <= fuel')%nat ->
  Factor.rho fuel' n rng = Returned r.
Proof.
  unfold Factor.rho. intros Hrun Hle.
  destruct (random_integer rng 2 (n - 3)) as [x0 rng1].
  unbind Hrun d Hloop.
  rewrite (rho_loop_mono _ _ _ _ _ _ _ _ _ _ Hloop Hle). exact Hrun.
Qed.

Lemma rho_retry_mono (fuel fuel' : nat) (n : Z) (rng : RandomNumberGenerator) r :
  Factor.rho_retry fuel n rng = Returned r -> (fuel <= fuel')%nat ->
  Factor.rho_retry fuel' n rng = Returned r.
Proof.
  revert fuel' rng.
  induction fuel as [| fuel IH]; intros fuel' rng; simpl; [discriminate |].
  intros Hrun Hle. destruct fuel' as [| fuel']; [lia |]. simpl.
  unbind Hrun attempt Hrho. destruct attempt as [a_factor rng1].
  rewrite (rho_mono _ fuel' _ _ _ Hrho) by lia. simpl.
  destruct (a_factor =? 0); [apply IH; [exact Hrun | lia] | exact Hrun].
Qed.

Lemma factorize_loop_mono
    (self self' : Z -> RandomNumberGenerator -> outcome (list Z * RandomNumberGenerator)) :
  (forall a g r, self a g = Returned r -> self' a g = Returned r) ->
  forall fuel fuel' n factors rng r,
    Factor.factorize_loop self fuel n factors rng = Returned r ->
    (fuel <= fuel')%nat ->
    Factor.factorize_loop self' fuel' n factors rng = Returned r.
Proof.
  intros Hself.
  induction fuel as [| fuel IH]; intros fuel' n factors rng r; simpl; [discriminate |].
  intros Hrun Hle. destruct fuel' as [| fuel']; [lia |]. simpl.
  destruct (n =? 1); [exact Hrun |].
  destruct (is_prime n rng) as [is_p rng1].
  destruct is_p; [exact Hrun |].
  unbind Hrun retry Hretry. destruct retry as [a_factor rng2].
  unbind Hrun rec Hrec. destruct rec as [rho_factored rng3].
  rewrite (rho_retry_mono _ fuel' _ _ _ Hretry) by lia. simpl.
  rewrite (Hself _ _ _ Hrec). simpl.
  apply IH; [exact Hrun | lia].
Qed.

Lemma factorize_mono (fuel : nat) :
  forall fuel' n rng r,
    Factor.factorize fuel n rng = Returned r -> (fuel <= fuel')%nat ->
    Factor.factorize fuel' n rng = Returned r.
Proof.
  induction fuel as [| fuel IH]; intros fuel' n rng r; simpl; [discriminate |].
  intros Hrun Hle. destruct fuel' as [| fuel']; [lia |]. simpl.
  unbind Hrun small Hsmall. destruct small as [n1 factors].
  rewrite (remove_small_factors_mono _ fuel' _ _ Hsmall) by lia. simpl.
  apply (factorize_loop_mono (Factor.factorize fuel) (Factor.factorize fuel')) with fuel.
  - intros a g r' Hr'. apply (IH fuel' a g r' Hr'). lia.
  - exact Hrun.
  - lia.
Qed.

End FuelMonotone.

(** ** The command surface *)

(** C5. [mod_inverse] fails when [n] has no inverse modulo [mod], that is
    when the two are not coprime: the failure of [inverse_mod] reaches the
    command, and no number is printed. *)
Theorem mod_inverse_not_coprime_fails (n mod_ : Z) :
  Z.gcd n mod_ <> 1 ->
  (exists e, Modular_Inverse.go n mod_ = Thrown e) /\
  (forall text, Modular_Inverse.go n mod_ <> Returned text).
Proof.
  intros Hg. unfold Modular_Inverse.go, Modular_Inverse.inverse_mod.
  destruct (Z.gcd n mod_ =? 1) eqn:E; [apply Z.eqb_eq in E; contradiction |].
  simpl. split; [eexists; reflexivity | discriminate].
Qed.

Section FactorCommand.

Context `{Lib : Botan}.


End FactorCommand.

(** ** The properties on the reference library *)

#[local] Existing Instance Reference.library.

Lemma reference_table_of_primes : table_of_primes.
Proof.
  unfold table_of_primes. apply Forall_forall. intros p Hp.
  apply primeb_spec. revert p Hp. apply forallb_forall. vm_compute. reflexivity.
Qed.

Lemma reference_table_ascending : table_ascending.
Proof.
  unfold table_ascending. simpl. unfold Reference.odd_primes_below_64.
  repeat constructor.
Qed.

Lemma reference_oracle_exact : oracle_exact.
Proof.
  intros n g. simpl. apply primeb_spec.
Qed.

(** 108 = 2 * 2 * 3 * 3 * 3: the table takes one 3 out, [rho] finds the
    next one in 9. *)
Lemma factorize_round_trip_witness :
  product [2; 2; 3; 3; 3] = 108 /\
  Forall (fun p => Z.prime p /\ forall g, fst (is_prime p g) = true) [2; 2; 3; 3; 3].
Proof.
  apply (factorize_round_trip reference_table_of_primes 50 108 0 1).
  - exact reference_oracle_exact.
  - reflexivity.
  - vm_compute. reflexivity.
Defined.

Lemma rho_returns_proper_divisor_witness :
  (1 < 3 < 9 /\ (3 | 9) /\ 3 <> 9) /\
  (forall fuel' one x y z i k,
     size_t (i + 1) < rho_cap ->
     (size_t (i + 1) =? k) || (size_t (i + 1) mod 128 =? 0) = true ->
     gcd (value (mul_by z (sub y (add (square_this x) one)))) 9 = 9 ->
     Factor.rho_loop (S fuel') 9 one x y z i k = Returned 0).
Proof.
  apply (rho_returns_proper_divisor (Lib := Reference.library) 10 9 0 1 3).
  - reflexivity.
  - vm_compute. reflexivity.
  - discriminate.
Defined.

Lemma rho_attempt_terminates_witness :
  (exists d rng',
     Factor.rho (Z.to_nat rho_cap) 9 0 = Returned (d, rng') /\
     (d = 0 \/ (1 < d < 9 /\ (d | 9)))) /\
  (forall one x y z i k,
     rho_cap <= size_t (i + 1) ->
     Factor.rho_loop (Z.to_nat rho_cap) 9 one x y z i k = Returned 0).
Proof.
  apply (rho_attempt_terminates (Lib := Reference.library)).
  - discriminate.
  - reflexivity.
  - apply Nat.le_refl.
Defined.


Lemma mod_inverse_not_coprime_fails_witness :
  (exists e, Modular_Inverse.go 4 8 = Thrown e) /\
  (forall text, Modular_Inverse.go 4 8 <> Returned text).
Proof.
  apply mod_inverse_not_coprime_fails. vm_compute. discriminate.
Defined.



Lemma factorize_table_prime_witness :
  Factor.factorize 4 7 0 = Returned ([7], 0).
Proof.
  apply (factorize_table_prime reference_table_of_primes 4 7 0).
  - exact reference_table_ascending.
  - right; right; left; reflexivity.
  - apply Nat.le_refl.
Defined.


(** 360 = 2 * 2 * 2 * 3 * 3 * 5. *)
Lemma remove_small_factors_product_witness :
  exists n' F,
    Factor.remove_small_factors 5 360 = Returned (n', F) /\
    360 = n' * product F /\
    Forall (fun f => f = 2 \/ In f PRIMES) F /\
    Forall (fun f => (f | 360)) F.
Proof.
  destruct (remove_small_factors_product 360 reference_table_of_primes eq_refl)
    as [Hpartial Htotal].
  destruct (Htotal 5%nat (Nat.le_refl 5)) as [n' [F Hrun]].
  exists n', F. split; [exact Hrun |].
  apply (Hpartial 5%nat n' F Hrun).
Defined.

(** ** The scenarios of the specification, on the reference library *)

Example factor_12 : Factor.go 50 12 0 = Returned (("12: 2 2 3 " ++ newline)%string, 0).
Proof. vm_compute. reflexivity. Qed.

Example factor_17 : Factor.go 50 17 0 = Returned (("17: 17 " ++ newline)%string, 0).
Proof. vm_compute. reflexivity. Qed.

Example factor_1 : Factor.factorize 50 1 0 = Returned ([], 0).
Proof. vm_compute. reflexivity. Qed.

(** Two primes beyond the table: all the work is done by [rho]. *)
Example factor_4757 : Factor.factorize 300 (67 * 71) 0 = Returned ([67; 71], 2).
Proof. vm_compute. reflexivity. Qed.

(** A seed on which the attempt fails with [d = n]: the retry loop goes
    on to the next seed. *)
Example rho_9_fails : Factor.rho 300 9 1 = Returned (0, 2).
Proof. vm_compute. reflexivity. Qed.

Example mod_inverse_3_7 : Modular_Inverse.go 3 7 = Returned ("5" ++ newline)%string.
Proof. vm_compute. reflexivity. Qed.

(** * Further properties of the commands *)

(** ** What [remove_small_factors] returns, exactly *)

Lemma divides_b_spec (n p : Z) : p <> 0 -> (divides_b n p = true <-> (p | n)).
Proof.
  intros Hp. unfold divides_b. rewrite Z.eqb_eq. apply Z.mod_divide. exact Hp.
Qed.

Lemma divides_b_ext (n m p : Z) :
  p <> 0 -> ((p | n) <-> (p | m)) -> divides_b n p = divides_b m p.
Proof.
  intros Hp Hiff.
  destruct (divides_b n p) eqn:En; destruct (divides_b m p) eqn:Em; try reflexivity.
  - apply divides_b_spec in En; [| exact Hp]. apply Hiff in En.
    apply divides_b_spec in En; [| exact Hp]. congruence.
  - apply divides_b_spec in Em; [| exact Hp]. apply Hiff in Em.
    apply divides_b_spec in Em; [| exact Hp]. congruence.
Qed.

Lemma filter_none {A : Type} (f : A -> bool) (l : list A) :
  (forall x, In x l -> f x = false) -> filter f l = [].
Proof.
  induction l as [| a l IH]; intros H; simpl; [reflexivity |].
  rewrite (H a) by (left; reflexivity). apply IH. intros x Hx. apply H. right. exact Hx.
Qed.

Lemma filter_primes (f : Z -> bool) (l : list Z) :
  Forall Z.prime l -> Forall Z.prime (filter f l).
Proof.
  intros Hl. rewrite Forall_forall in *. intros p Hp.
  apply filter_In in Hp. apply Hl, Hp.
Qed.

Lemma product_primes_pos (l : list Z) : Forall Z.prime l -> 0 < product l.
Proof.
  intros Hl. induction Hl as [| a l Ha Hl IH]; simpl; [lia |].
  pose proof (Z.prime_ge_2 a Ha). nia.
Qed.

Lemma filter_strictly_sorted (f : Z -> bool) (l : list Z) :
  StronglySorted Z.lt l -> StronglySorted Z.lt (filter f l).
Proof.
  intros Hs. induction Hs as [| a l Hs IH Hall]; simpl; [constructor |].
  destruct (f a); [| exact IH].
  constructor; [exact IH |].
  rewrite Forall_forall in *. intros x Hx. apply filter_In in Hx. apply Hall, Hx.
Qed.

(** Sorting a vector that is in order leaves it as it is. *)
Lemma sort_sorted_id (l : list Z) : StronglySorted Z.le l -> sort l = l.
Proof.
  intros Hs. induction Hs as [| a l Hs IH Hall]; [reflexivity |].
  unfold sort in *. simpl. rewrite IH.
  destruct l as [| b l']; [reflexivity |]. simpl.
  pose proof (Forall_inv Hall) as Hab. apply Z.leb_le in Hab. rewrite Hab. reflexivity.
Qed.

Section SmallFactorsExact.

Context `{Lib : Botan}.

(** The scan pushes the entries that divide [n], and nothing else. *)
Lemma table_loop_filter (l : list Z) :
  forall fuel n factors,
    (2 <= fuel)%nat -> Forall Z.prime l -> StronglySorted Z.lt l -> 0 < n ->
    Factor.table_loop fuel l n factors =
    Returned (n / product (filter (divides_b n) l), factors ++ filter (divides_b n) l).
Proof.
  induction l as [| q rest IH]; intros fuel n factors Hfuel Hl Hs Hn.
  - simpl. rewrite Z.div_1_r, app_nil_r. reflexivity.
  - pose proof (Forall_inv Hl) as Hq. pose proof (Forall_inv_tail Hl) as Hrest.
    pose proof (Z.prime_ge_2 q Hq) as Hge.
    apply StronglySorted_inv in Hs. destruct Hs as [Hs Hall].
    rewrite Forall_forall in Hall.
    rewrite table_loop_cons by exact Hq.
    destruct (n <? q) eqn:Elt.
    { apply Z.ltb_lt in Elt. rewrite filter_none.
      - simpl. rewrite Z.div_1_r, app_nil_r. reflexivity.
      - intros p Hp. unfold divides_b. apply Z.eqb_neq.
        assert (q <= p) by (destruct Hp as [<- | Hp]; [lia | specialize (Hall p Hp); lia]).
        rewrite Z.mod_small; lia. }
    destruct (gcd n q =? 1) eqn:Eg.
    { apply Z.eqb_eq in Eg.
      assert (Hnot : divides_b n q = false).
      { destruct (divides_b n q) eqn:E; [| reflexivity]. exfalso.
        apply divides_b_spec in E; [| lia]. unfold gcd in Eg.
        apply Z.divide_gcd_iff in E; [| lia]. rewrite Z.gcd_comm in E. lia. }
      cbn [filter]. rewrite Hnot. apply IH; assumption. }
    apply Z.eqb_neq in Eg.
    destruct (gcd_prime_cases n q Hq) as [H1 | [_ Hdiv]]; [contradiction |].
    destruct (2 <=? fuel)%nat eqn:E2; [| apply Nat.leb_gt in E2; lia].
    assert (Hyes : divides_b n q = true) by (apply divides_b_spec; [lia | exact Hdiv]).
    cbn [filter]. rewrite Hyes.
    destruct Hdiv as [c Hc].
    assert (Hquot : n / q = c) by (rewrite Hc; apply Z.div_mul; lia).
    assert (Hcpos : 0 < c) by nia.
    assert (Hsame : filter (divides_b c) rest = filter (divides_b n) rest).
    { apply filter_ext_in. intros p Hp.
      assert (Hpp : Z.prime p) by (rewrite Forall_forall in Hrest; auto).
      pose proof (Z.prime_ge_2 p Hpp).
      apply divides_b_ext; [lia |]. rewrite Hc. split.
      - intros Hd. apply Z.divide_mul_l. exact Hd.
      - intros Hd. rewrite Z.mul_comm in Hd. apply (Z.gauss p q c Hd).
        apply coprime_distinct_primes; [exact Hpp | exact Hq |].
        specialize (Hall p Hp). lia. }
    rewrite Hquot, (IH fuel c (factors ++ [q]) Hfuel Hrest Hs Hcpos), Hsame.
    rewrite <- app_assoc. simpl.
    rewrite <- Hquot, Z.div_div; [reflexivity | lia |].
    apply product_primes_pos, filter_primes, Hrest.
Qed.

Lemma small_factors_product (n : Z) :
  table_of_primes ->
  0 < product (small_factors n) /\ Forall (fun f => 1 < f) (small_factors n).
Proof.
  intros Htab. unfold small_factors. split.
  - rewrite product_app, product_repeat.
    assert (0 < 2 ^ Z.of_nat (val2 n)) by (apply Z.pow_pos_nonneg; lia).
    pose proof (product_primes_pos _ (filter_primes
                  (fun p => divides_b n p && negb (p =? 2)) _ Htab)).
    nia.
  - apply Forall_app. split.
    + apply Forall_forall. intros f Hf. apply repeat_spec in Hf. lia.
    + pose proof (filter_primes (fun p => divides_b n p && negb (p =? 2)) _ Htab) as Hp.
      rewrite Forall_forall in *. intros f Hf.
      pose proof (Z.prime_ge_2 f (Hp f Hf)). lia.
Qed.

Lemma remove_small_factors_run (fuel : nat) (n : Z) :
  table_of_primes -> table_ascending -> 0 < n -> (val2 n + 2 <= fuel)%nat ->
  Factor.remove_small_factors fuel n =
  Returned (n / product (small_factors n), small_factors n).
Proof.
  intros Htab Hasc Hn Hfuel.
  assert (Hnz : n <> 0) by lia.
  assert (Hfuel' : (val2 n < fuel)%nat) by lia.
  destruct (even_loop_returns fuel n [] Hnz Hfuel') as [[n1 F1] Heven].
  destruct (even_loop_spec _ _ _ _ _ Hnz Heven) as [HF1 [Hn1 Hodd1]].
  simpl in HF1. subst F1.
  assert (Hpow : 0 < 2 ^ Z.of_nat (val2 n)) by (apply Z.pow_pos_nonneg; lia).
  assert (Hn1pos : 0 < n1) by nia.
  unfold Factor.remove_small_factors. rewrite Heven. cbn [bind].
  rewrite table_loop_filter; [| lia | exact Htab | exact Hasc | exact Hn1pos].
  assert (Hsame : filter (divides_b n1) PRIMES =
                  filter (fun p => divides_b n p && negb (p =? 2)) PRIMES).
  { apply filter_ext_in. intros p Hp.
    assert (Hpp : Z.prime p).
    { unfold table_of_primes in Htab. rewrite Forall_forall in Htab. auto. }
    pose proof (Z.prime_ge_2 p Hpp).
    destruct (p =? 2) eqn:E2.
    - apply Z.eqb_eq in E2. subst p. rewrite andb_false_r.
      unfold divides_b. rewrite Zmod_even, Hodd1. reflexivity.
    - apply Z.eqb_neq in E2. rewrite andb_true_r.
      apply divides_b_ext; [lia |].
      assert (Hcop : Z.coprime p (2 ^ Z.of_nat (val2 n))).
      { apply Z.coprime_pow_r; [lia |].
        apply coprime_distinct_primes; [exact Hpp | exact Z.prime_2 | exact E2]. }
      split.
      + intros Hd. rewrite Hn1 at 1. apply Z.divide_mul_l. exact Hd.
      + intros Hd. rewrite Hn1, (Z.mul_comm n1) in Hd. apply (Z.gauss _ _ _ Hd Hcop). }
  rewrite Hsame. unfold small_factors.
  rewrite product_app, product_repeat.
  assert (Hq : n / 2 ^ Z.of_nat (val2 n) = n1).
  { rewrite Hn1 at 1. apply Z.div_mul. lia. }
  rewrite <- Z.div_div, Hq; [reflexivity | lia |].
  apply product_primes_pos, filter_primes, Htab.
Qed.

(** X1. [remove_small_factors] as a function: on [n > 0], with an
    ascending table of primes, it returns a 2 for each factor 2 of [n]
    followed by the table entries that divide [n], in table order, and
    leaves [n] divided by their product. *)
Theorem remove_small_factors_exact (fuel : nat) (n : Z) :
  table_of_primes -> table_ascending -> 0 < n -> (val2 n + 2 <= fuel)%nat ->
  Factor.remove_small_factors fuel n =
  Returned (n / product (small_factors n), small_factors n).
Proof.
  apply remove_small_factors_run.
Qed.

Lemma small_factors_sorted (n : Z) :
  table_of_primes -> table_ascending -> StronglySorted Z.le (small_factors n).
Proof.
  intros Htab Hasc. unfold small_factors.
  set (G := filter (fun p => divides_b n p && negb (p =? 2)) PRIMES).
  assert (HG : StronglySorted Z.lt G) by (apply filter_strictly_sorted, Hasc).
  assert (HG3 : Forall (fun p => 2 <= p) G).
  { pose proof (filter_primes (fun p => divides_b n p && negb (p =? 2)) _ Htab) as Hp.
    fold G in Hp. rewrite Forall_forall in *. intros p Hin.
    apply (Z.prime_ge_2 p (Hp p Hin)). }
  assert (HGle : StronglySorted Z.le G).
  { clear HG3. induction HG as [| a l Hs IH Hall]; constructor; [exact IH |].
    rewrite Forall_forall in *. intros x Hx. specialize (Hall x Hx). lia. }
  induction (val2 n) as [| k IH]; simpl; [exact HGle |].
  constructor; [exact IH |].
  apply Forall_app. split; [| exact HG3].
  apply Forall_forall. intros x Hx. apply repeat_spec in Hx. lia.
Qed.

(** X2. The vector that [remove_small_factors] returns is in ascending
    order, so that the [std::sort] of the factor command leaves it as it
    is. *)
Theorem remove_small_factors_ascending (fuel : nat) (n : Z) :
  table_of_primes -> table_ascending -> 0 < n -> (val2 n + 2 <= fuel)%nat ->
  exists n' F,
    Factor.remove_small_factors fuel n = Returned (n', F) /\
    StronglySorted Z.le F /\ sort F = F.
Proof.
  intros Htab Hasc Hn Hfuel.
  exists (n / product (small_factors n)), (small_factors n).
  split; [apply remove_small_factors_run; assumption |].
  pose proof (small_factors_sorted n Htab Hasc) as Hs.
  split; [exact Hs | apply sort_sorted_id, Hs].
Qed.

(** X3. When what [remove_small_factors] leaves is 1, or is accepted by
    the oracle, [factorize] returns without a call of [rho]: the small
    factors alone with the generator untouched, or followed by that last
    factor with the generator as the oracle left it. *)
Theorem factorize_without_rho
    (fuel : nat) (n : Z) (rng rng1 : RandomNumberGenerator) (is_p : bool) :
  table_of_primes -> table_ascending -> 0 < n -> (val2 n + 3 <= fuel)%nat ->
  is_prime (n / product (small_factors n)) rng = (is_p, rng1) ->
  (n / product (small_factors n) = 1 ->
   Factor.factorize fuel n rng = Returned (small_factors n, rng)) /\
  (n / product (small_factors n) <> 1 -> is_p = true ->
   Factor.factorize fuel n rng =
   Returned (small_factors n ++ [n / product (small_factors n)], rng1)).
Proof.
  intros Htab Hasc Hn Hfuel Horacle.
  destruct fuel as [| [| fuel]]; try lia.
  cbn [Factor.factorize].
  rewrite remove_small_factors_run by (try assumption; lia).
  cbn [bind Factor.factorize_loop]. split.
  - intros H1. rewrite H1. reflexivity.
  - intros H1 Hp. apply Z.eqb_neq in H1. rewrite H1, Horacle, Hp. reflexivity.
Qed.

End SmallFactorsExact.

(** ** What [factorize] returns, whatever the oracle answers *)

Lemma pow2_le_product (l : list Z) :
  Forall (fun f => 1 < f) l -> 2 ^ Z.of_nat (List.length l) <= product l.
Proof.
  intros Hl. induction Hl as [| a l Ha Hl IH]; [simpl; lia |].
  cbn [List.length product fold_right]. fold (product l).
  rewrite Nat2Z.inj_succ, Z.pow_succ_r by lia.
  assert (0 < 2 ^ Z.of_nat (List.length l)) by (apply Z.pow_pos_nonneg; lia).
  nia.
Qed.

Section FactorizeEntries.

Context `{Lib : Botan}.

Hypothesis table_ok : table_of_primes.

Lemma factorize_loop_entries
    (self : Z -> RandomNumberGenerator -> outcome (list Z * RandomNumberGenerator)) :
  (forall a g fs g', 0 < a -> self a g = Returned (fs, g') ->
                     Forall (fun f => 1 < f) fs) ->
  forall fuel n factors rng fs rng',
    0 < n -> Forall (fun f => 1 < f) factors ->
    Factor.factorize_loop self fuel n factors rng = Returned (fs, rng') ->
    Forall (fun f => 1 < f) fs.
Proof.
  intros Hself.
  induction fuel as [| fuel IH]; intros n factors rng fs rng' Hn Hfactors;
    simpl; [discriminate |].
  destruct (n =? 1) eqn:E1.
  - intros H. injection H as <- <-. exact Hfactors.
  - apply Z.eqb_neq in E1.
    destruct (is_prime n rng) as [is_p rng1]. destruct is_p.
    + intros H. injection H as <- <-. apply Forall_app. split; [exact Hfactors |].
      constructor; [lia | constructor].
    + intros Hrun.
      unbind Hrun retry Hretry. destruct retry as [a_factor rng2].
      unbind Hrun rec Hrec. destruct rec as [rho_factored rng3].
      assert (Hn1 : 1 < n) by lia.
      destruct (rho_retry_divisor _ _ _ _ _ Hn1 Hretry) as [Ha [c Hc]].
      assert (Hapos : 0 < a_factor) by lia.
      assert (Hq : 0 < n / a_factor).
      { rewrite Hc, Z.div_mul by lia. nia. }
      apply (IH _ _ _ _ _ Hq) in Hrun; [exact Hrun |].
      apply Forall_app. split; [exact Hfactors |].
      apply (Hself _ _ _ _ Hapos Hrec).
Qed.

Lemma factorize_entries (fuel : nat) :
  forall n rng fs rng',
    0 < n -> Factor.factorize fuel n rng = Returned (fs, rng') ->
    Forall (fun f => 1 < f) fs.
Proof.
  induction fuel as [| fuel IH]; intros n rng fs rng' Hn; simpl; [discriminate |].
  intros Hrun. unbind Hrun small Hsmall. destruct small as [n1 factors].
  destruct (remove_small_factors_spec _ _ _ _ table_ok Hn Hsmall)
    as [G [HF [_ [Hn1 [_ [Hincl _]]]]]].
  apply (factorize_loop_entries _ IH _ _ _ _ _ _ Hn1) in Hrun; [exact Hrun |].
  rewrite HF. apply Forall_app. split.
  - apply Forall_forall. intros f Hf. apply repeat_spec in Hf. lia.
  - apply Forall_forall. intros f Hf.
    unfold table_of_primes in table_ok. rewrite Forall_forall in table_ok.
    pose proof (Z.prime_ge_2 f (table_ok f (Hincl f Hf))). lia.
Qed.

(** X4. Whatever the oracle answers, every entry of the vector that
    [factorize] returns for [n > 0] is a divisor of [n] greater than 1,
    and the vector has at most [log2 n] entries. *)
Theorem factorize_entries_nontrivial
    (fuel : nat) (n : Z) (rng rng' : RandomNumberGenerator) (fs : list Z) :
  0 < n ->
  Factor.factorize fuel n rng = Returned (fs, rng') ->
  Forall (fun f => 1 < f /\ (f | n)) fs /\
  2 ^ Z.of_nat (List.length fs) <= n /\
  Z.of_nat (List.length fs) <= Z.log2 n.
Proof.
  intros Hn Hrun.
  pose proof (factorize_entries fuel n rng fs rng' Hn Hrun) as Hgt.
  destruct (factorize_sound table_ok fuel n rng fs rng' Hn Hrun) as [Hprod _].
  assert (Hpow : 2 ^ Z.of_nat (List.length fs) <= n).
  { rewrite <- Hprod. apply pow2_le_product. exact Hgt. }
  split; [| split].
  - rewrite Forall_forall in *. intros f Hf. split; [apply Hgt, Hf |].
    rewrite <- Hprod. apply In_divides_product, Hf.
  - exact Hpow.
  - apply Z.log2_le_pow2; [exact Hn | exact Hpow].
Qed.

(** X5. [factorize] returns the empty vector for 1 and for no other
    positive integer; on 1 it returns at once, the generator untouched. *)
Theorem factorize_empty_iff_one
    (fuel : nat) (n : Z) (rng : RandomNumberGenerator) :
  0 < n ->
  (forall fs rng', Factor.factorize fuel n rng = Returned (fs, rng') ->
                   (fs = [] <-> n = 1)) /\
  (n = 1 -> (2 <= fuel)%nat -> Factor.factorize fuel n rng = Returned ([], rng)).
Proof.
  intros Hn. split.
  - intros fs rng' Hrun.
    pose proof (factorize_entries fuel n rng fs rng' Hn Hrun) as Hgt.
    destruct (factorize_sound table_ok fuel n rng fs rng' Hn Hrun) as [Hprod _].
    split.
    + intros ->. simpl in Hprod. lia.
    + intros ->. destruct fs as [| a fs]; [reflexivity |]. exfalso.
      pose proof (Forall_inv Hgt) as Ha. simpl in Ha.
      assert (Hdiv : (a | 1)).
      { rewrite <- Hprod. apply In_divides_product. left. reflexivity. }
      apply Z.divide_1_r in Hdiv. lia.
  - intros -> Hfuel. apply factorize_one; assumption.
Qed.

End FactorizeEntries.

(** ** The line of the factor command *)

Lemma insert_sorted_perm (a : Z) (l : list Z) : Permutation (a :: l) (insert_sorted a l).
Proof.
  induction l as [| b l IH]; simpl; [apply Permutation_refl |].
  destruct (a <=? b); [apply Permutation_refl |].
  apply perm_trans with (b :: a :: l); [apply perm_swap | apply perm_skip, IH].
Qed.

Lemma sort_perm (l : list Z) : Permutation l (sort l).
Proof.
  induction l as [| a l IH]; [apply Permutation_refl |].
  unfold sort in *. simpl.
  apply perm_trans with (a :: fold_right insert_sorted [] l).
  - apply perm_skip, IH.
  - apply insert_sorted_perm.
Qed.

Lemma insert_sorted_sorted (a : Z) (l : list Z) :
  StronglySorted Z.le l -> StronglySorted Z.le (insert_sorted a l).
Proof.
  intros Hs. induction Hs as [| b l Hs IH Hall]; simpl.
  - constructor; constructor.
  - destruct (a <=? b) eqn:E.
    + apply Z.leb_le in E. constructor; [constructor; assumption |].
      constructor; [exact E |].
      rewrite Forall_forall in *. intros x Hx. specialize (Hall x Hx). lia.
    + apply Z.leb_gt in E. constructor; [exact IH |].
      apply (Permutation_Forall (insert_sorted_perm a l)).
      constructor; [lia | exact Hall].
Qed.

Lemma sort_sorted (l : list Z) : StronglySorted Z.le (sort l).
Proof.
  induction l as [| a l IH]; [constructor |].
  unfold sort in *. simpl. apply insert_sorted_sorted, IH.
Qed.

(** Two vectors in ascending order with the same entries are the same. *)
Lemma sorted_perm_eq (l1 : list Z) :
  forall l2, StronglySorted Z.le l1 -> StronglySorted Z.le l2 ->
             Permutation l1 l2 -> l1 = l2.
Proof.
  induction l1 as [| a l1 IH]; intros l2 Hs1 Hs2 Hperm.
  - apply Permutation_nil in Hperm. congruence.
  - destruct l2 as [| b l2].
    + apply Permutation_sym, Permutation_nil in Hperm. discriminate.
    + apply StronglySorted_inv in Hs1. destruct Hs1 as [Hs1 Hall1].
      apply StronglySorted_inv in Hs2. destruct Hs2 as [Hs2 Hall2].
      rewrite Forall_forall in Hall1, Hall2.
      assert (Hab : a = b).
      { assert (Ha : In a (b :: l2)).
        { apply (Permutation_in _ Hperm). left. reflexivity. }
        assert (Hb : In b (a :: l1)).
        { apply (Permutation_in _ (Permutation_sym Hperm)). left. reflexivity. }
        destruct Ha as [Ha | Ha]; [congruence |].
        destruct Hb as [Hb | Hb]; [congruence |].
        specialize (Hall1 b Hb). specialize (Hall2 a Ha). lia. }
      subst b. f_equal. apply IH; try assumption.
      apply (Permutation_cons_inv Hperm).
Qed.

Lemma sort_perm_eq (l1 l2 : list Z) : Permutation l1 l2 -> sort l1 = sort l2.
Proof.
  intros Hperm. apply sorted_perm_eq; try apply sort_sorted.
  apply perm_trans with l1; [apply Permutation_sym, sort_perm |].
  apply perm_trans with l2; [exact Hperm | apply sort_perm].
Qed.

(** A positive integer has one factorization into primes. *)
Lemma prime_factorization_unique (l1 : list Z) :
  forall l2, Forall Z.prime l1 -> Forall Z.prime l2 ->
             product l1 = product l2 -> Permutation l1 l2.
Proof.
  induction l1 as [| p l1 IH]; intros l2 H1 H2 Hprod.
  - destruct l2 as [| b l2]; [apply Permutation_refl |]. exfalso.
    pose proof (Z.prime_ge_2 b (Forall_inv H2)) as Hge.
    assert (Hdiv : (b | 1)).
    { simpl in Hprod. rewrite Hprod. apply Z.divide_factor_l. }
    apply Z.divide_1_r in Hdiv. lia.
  - pose proof (Forall_inv H1) as Hp. pose proof (Forall_inv_tail H1) as H1'.
    pose proof (Z.prime_ge_2 p Hp) as Hge.
    assert (Hin : In p l2).
    { apply prime_divides_product; [exact Hp | exact H2 |].
      rewrite <- Hprod. simpl. apply Z.divide_factor_l. }
    apply in_split in Hin. destruct Hin as [a [b ->]].
    apply Permutation_cons_app. apply IH.
    + exact H1'.
    + apply Forall_app in H2. destruct H2 as [Ha Hb].
      apply Forall_app. split; [exact Ha | apply (Forall_inv_tail Hb)].
    + rewrite product_app in *. simpl in Hprod.
      apply (Z.mul_reg_l _ _ p); [lia |]. rewrite Hprod. ring.
Qed.

Section FactorLine.

Context `{Lib : Botan}.

(** X7. The line that the factor command writes does not depend on the
    random numbers: with a table of primes and an oracle that is never
    wrong, two runs on the same [n > 0] that return, from any two states
    of the generator, write the same line. *)
Theorem go_line_independent_of_generator
    (fuel1 fuel2 : nat) (n : Z) (g1 g2 g1' g2' : RandomNumberGenerator)
    (line1 line2 : string) :
  table_of_primes -> oracle_exact -> 0 < n ->
  Factor.go fuel1 n g1 = Returned (line1, g1') ->
  Factor.go fuel2 n g2 = Returned (line2, g2') ->
  line1 = line2.
Proof.
  intros Htab Horacle Hn Hrun1 Hrun2. unfold Factor.go in *.
  unbind Hrun1 run1 Hfact1. destruct run1 as [fs1 r1].
  unbind Hrun2 run2 Hfact2. destruct run2 as [fs2 r2].
  injection Hrun1 as <- _. injection Hrun2 as <- _.
  assert (Hsound : forall m g, fst (is_prime m g) = true -> Z.prime m).
  { intros m g Hm. apply (Horacle m g). exact Hm. }
  destruct (factorize_sound Htab _ _ _ _ _ Hn Hfact1) as [Hp1 [_ Hprimes1]].
  destruct (factorize_sound Htab _ _ _ _ _ Hn Hfact2) as [Hp2 [_ Hprimes2]].
  rewrite (sort_perm_eq fs1 fs2); [reflexivity |].
  apply prime_factorization_unique; [auto | auto | congruence].
Qed.

(** X8. The factors on the line of the factor command are those that
    [factorize] returned, each as often, in ascending order. *)
Theorem go_prints_ascending
    (fuel : nat) (n : Z) (rng rng' : RandomNumberGenerator) (line : string) :
  Factor.go fuel n rng = Returned (line, rng') ->
  exists fs printed,
    Factor.factorize fuel n rng = Returned (fs, rng') /\
    Permutation fs printed /\ StronglySorted Z.le printed /\
    line = Factor.render n printed.
Proof.
  unfold Factor.go. intros Hrun.
  unbind Hrun run Hfact. destruct run as [fs rng1].
  injection Hrun as <- <-. exists fs, (sort fs).
  split; [exact Hfact |]. split; [apply sort_perm |].
  split; [apply sort_sorted | reflexivity].
Qed.

End FactorLine.

(** ** When [factorize] returns, input by input *)

Section FactorizeReturnsOnDivisors.

Context `{Lib : Botan}.

Hypothesis table_ok : table_of_primes.

Lemma factorize_loop_returns_on_divisors (N : Z) :
  0 < N ->
  (forall m g g1, 1 < m -> (m | N) -> Z.even m = false -> is_prime m g = (false, g1) ->
     exists fuel r, Factor.rho_retry fuel m g1 = Returned r) ->
  (forall a, 0 < a < N -> (a | N) -> forall g,
     exists fuel fs g', Factor.factorize fuel a g = Returned (fs, g')) ->
  forall m, 0 < m -> (m | N) -> Z.even m = false ->
  forall factors g,
  exists f0 r, forall fs fl, (f0 <= fs)%nat -> (f0 <= fl)%nat ->
    Factor.factorize_loop (Factor.factorize fs) fl m factors g = Returned r.
Proof.
  intros HN Hretry Hrec m. pattern m. apply (well_founded_induction (Z.lt_wf 0)).
  clear m. intros m IH Hm HmN Hodd factors g.
  destruct (m =? 1) eqn:E1.
  - exists 1%nat, (factors, g). intros fs fl _ Hfl.
    destruct fl as [| fl]; [lia |]. simpl. rewrite E1. reflexivity.
  - destruct (is_prime m g) as [is_p g1] eqn:Eoracle. destruct is_p.
    + exists 1%nat, (factors ++ [m], g1). intros fs fl _ Hfl.
      destruct fl as [| fl]; [lia |]. simpl. rewrite E1, Eoracle. reflexivity.
    + apply Z.eqb_neq in E1.
      assert (Hm1 : 1 < m) by lia.
      destruct (Hretry m g g1 Hm1 HmN Hodd Eoracle) as [f1 [[a g2] Hrun]].
      destruct (rho_retry_divisor _ _ _ _ _ Hm1 Hrun) as [Ha Hdiv].
      assert (Hanz : a <> 0) by lia.
      destruct (odd_divisor m a Hodd Hdiv Hanz) as [_ [Hoddq Hmq]].
      assert (Hq : 0 < m / a < m) by nia.
      assert (HmleN : m <= N) by (apply Z.divide_pos_le; assumption).
      assert (HaN : (a | N)) by (apply (Z.divide_trans _ m); assumption).
      assert (HqN : (m / a | N)).
      { apply (Z.divide_trans _ m); [| exact HmN].
        exists a. rewrite Hmq at 1. ring. }
      destruct (Hrec a ltac:(lia) HaN g2) as [f2 [rho_factored [g3 Hself]]].
      destruct (IH (m / a) ltac:(lia) ltac:(lia) HqN Hoddq (factors ++ rho_factored) g3)
        as [f3 [r Hloop]].
      exists (S (Nat.max f1 (Nat.max f2 f3))), r. intros fs fl Hfs Hfl.
      destruct fl as [| fl]; [lia |]. simpl.
      apply Z.eqb_neq in E1. rewrite E1, Eoracle.
      rewrite (rho_retry_mono _ fl _ _ _ Hrun) by lia. simpl.
      rewrite (factorize_mono _ fs _ _ _ Hself) by lia. simpl.
      apply Hloop; lia.
Qed.

(** X6. [factorize] returns on [n > 0] as soon as the retry loop around
    [rho] returns on the divisors of [n] it can be started on (the odd
    divisors above 1 that the oracle rejects): the values the main loop
    works on, those handed to the recursive calls and the quotients that
    are left, are divisors of [n], smaller at each step. *)
Theorem factorize_returns_on_divisors (n : Z) :
  0 < n ->
  (forall m g g1, 1 < m -> (m | n) -> Z.even m = false -> is_prime m g = (false, g1) ->
     exists fuel r, Factor.rho_retry fuel m g1 = Returned r) ->
  forall g, exists fuel fs g', Factor.factorize fuel n g = Returned (fs, g').
Proof.
  pattern n. apply (well_founded_induction (Z.lt_wf 0)). clear n.
  intros n IH Hn Hretry g.
  assert (Hnz : n <> 0) by lia.
  destruct (remove_small_factors_returns _ n table_ok Hnz (Nat.le_refl _))
    as [[n1 factors] Hsmall].
  destruct (remove_small_factors_spec _ _ _ _ table_ok Hn Hsmall)
    as [G [_ [Hprod [Hn1 [Hodd1 _]]]]].
  assert (Hdiv1 : (n1 | n)).
  { exists (2 ^ Z.of_nat (val2 n) * product G). rewrite Hprod at 1. ring. }
  destruct (factorize_loop_returns_on_divisors n Hn Hretry)
    with (m := n1) (factors := factors) (g := g) as [f0 [[fs g'] Hloop]].
  - intros a Ha HaN g0. apply IH; [lia | lia |].
    intros m g2 g3 Hm Hma. apply Hretry; [exact Hm |].
    apply (Z.divide_trans _ a); assumption.
  - exact Hn1.
  - exact Hdiv1.
  - exact Hodd1.
  - exists (S (Nat.max (val2 n + 2) f0)), fs, g'. simpl.
    rewrite (remove_small_factors_mono _ (Nat.max (val2 n + 2) f0) _ _ Hsmall) by lia.
    simpl. apply Hloop; lia.
Qed.

End FactorizeReturnsOnDivisors.

(** ** Brent's schedule in [rho] *)

Section RhoSchedule.

Context `{Lib : Botan}.

(** X11. Where [size_t] has more than 32 bits, [rho] keeps Brent's
    schedule: at the head of every turn [k] is the power of two just above
    the counter [i] (as it is at the start, with [i = 1] and [k = 2]); a
    turn that goes on has advanced [i] by one, still below the cap, and
    has doubled [k] exactly when [i] reached it. *)
Theorem rho_keeps_brent_schedule
    (n : Z) (one x y z x' y' z' : Montgomery_Int) (i k i' k' : Z) :
  33 <= size_t_bits ->
  brent_schedule i k -> i < rho_cap ->
  Factor.rho_iteration n one x y z i k = Factor.Rho_continue x' y' z' i' k' ->
  brent_schedule 1 2 /\
  i' = i + 1 /\ i' < rho_cap /\ brent_schedule i' k' /\
  ((i' = k /\ k' = 2 * k /\ y' = x') \/ (i' <> k /\ k' = k /\ y' = y)).
Proof.
  intros Hbits [j [Hj [Hk Hi]]] Hcap Hstep.
  split.
  { exists 1. repeat split; try lia; reflexivity. }
  assert (Hpos : 0 < 2 ^ (j - 1)) by (apply Z.pow_pos_nonneg; lia).
  assert (Hbits32 : 32 <= size_t_bits) by lia.
  assert (Hi0 : 0 <= i < rho_cap) by lia.
  destruct (rho_iteration_continue _ _ _ _ _ _ _ _ _ _ _ _ Hbits32 Hi0 Hstep)
    as [Hi' Hcap'].
  split; [exact Hi' |]. split; [exact Hcap' |].
  assert (Hw : size_t (i + 1) = i + 1).
  { unfold size_t. apply Z.mod_small. unfold rho_cap in Hcap.
    pose proof (Z.pow_le_mono_r 2 32 size_t_bits ltac:(lia) Hbits32) as Hpow.
    change (2 ^ 32) with 4294967296 in Hpow. lia. }
  assert (Hdouble : 2 ^ (j + 1) = 2 * 2 ^ j).
  { rewrite Z.pow_add_r, Z.pow_1_r by lia. ring. }
  assert (Hhalf : 2 ^ j = 2 * 2 ^ (j - 1)).
  { replace j with (j - 1 + 1) at 1 by lia.
    rewrite Z.pow_add_r, Z.pow_1_r by lia. ring. }
  unfold Factor.rho_iteration, Factor.rho_next in Hstep. rewrite Hw in Hstep.
  remember (size_t (2 * k)) as k2 eqn:Hk2.
  destruct (0xFFFF0000 <=? i + 1); [discriminate |].
  assert (Hnext : (if i + 1 =? k
                   then Factor.Rho_continue (add (square_this x) one)
                          (add (square_this x) one) z' (i + 1) k2
                   else Factor.Rho_continue (add (square_this x) one) y z' (i + 1) k)
                  = Factor.Rho_continue x' y' z' i' k').
  { destruct ((i + 1 =? k) || ((i + 1) mod 128 =? 0)).
    - destruct (gcd _ n =? n); [discriminate |].
      destruct (negb (gcd _ n =? 1)); [discriminate |].
      destruct (i + 1 =? k); injection Hstep as <- <- <- <- <-; reflexivity.
    - destruct (i + 1 =? k); injection Hstep as <- <- <- <- <-; reflexivity. }
  destruct (i + 1 =? k) eqn:Ek; injection Hnext as <- <- <- <-.
  - apply Z.eqb_eq in Ek.
    assert (Hj32 : j < 32).
    { apply (Z.pow_lt_mono_r_iff 2); [lia | lia |].
      change (2 ^ 32) with 4294967296. unfold rho_cap in Hcap'. lia. }
    assert (H2k : size_t (2 * k) = 2 * k).
    { unfold size_t. apply Z.mod_small.
      pose proof (Z.pow_le_mono_r 2 33 size_t_bits ltac:(lia) Hbits) as Hpow.
      change (2 ^ 33) with 8589934592 in Hpow. unfold rho_cap in Hcap'. lia. }
    rewrite Hk2, H2k. split.
    + exists (j + 1). replace (j + 1 - 1) with j by lia.
      repeat split; lia.
    + left. repeat split; lia.
  - apply Z.eqb_neq in Ek. split.
    + exists j. repeat split; lia.
    + right. repeat split; [exact Ek].
Qed.

End RhoSchedule.

(** ** [gen_prime] *)

Lemma string_app_nil_r (s : string) : (s ++ EmptyString)%string = s.
Proof.
  induction s as [| c s IH]; simpl; [reflexivity | rewrite IH; reflexivity].
Qed.

Lemma string_app_assoc (s t u : string) :
  ((s ++ t) ++ u)%string = (s ++ t ++ u)%string.
Proof.
  induction s as [| c s IH]; simpl; [reflexivity | rewrite IH; reflexivity].
Qed.

Lemma concat_empty_cons (s : string) (l : list string) :
  concat EmptyString (s :: l) = (s ++ concat EmptyString l)%string.
Proof.
  destruct l as [| t l]; simpl; [rewrite string_app_nil_r |]; reflexivity.
Qed.

Section GenPrime.

Context `{Lib : Botan}.

Variable random_prime : RandomNumberGenerator -> Z -> Z * RandomNumberGenerator.

Lemma draws_length (k : nat) (bits : Z) (rng : RandomNumberGenerator) :
  List.length (fst (Gen_Prime.draws random_prime k bits rng)) = k.
Proof.
  revert rng. induction k as [| k IH]; intros rng; simpl; [reflexivity |].
  destruct (random_prime rng bits) as [p rng1]. specialize (IH rng1).
  destruct (Gen_Prime.draws random_prime k bits rng1) as [ps rng2].
  simpl in *. rewrite IH. reflexivity.
Qed.

Lemma draws_all (P : Z -> Prop) (k : nat) (bits : Z) (rng : RandomNumberGenerator) :
  (forall g, P (fst (random_prime g bits))) ->
  Forall P (fst (Gen_Prime.draws random_prime k bits rng)).
Proof.
  intros HP. revert rng. induction k as [| k IH]; intros rng; simpl; [constructor |].
  pose proof (HP rng) as Hp.
  destruct (random_prime rng bits) as [p rng1]. specialize (IH rng1).
  destruct (Gen_Prime.draws random_prime k bits rng1) as [ps rng2].
  simpl in *. constructor; assumption.
Qed.

(** From the counter [i], with [k] turns to go. *)
Lemma gen_prime_loop_spec (k : nat) :
  forall fuel i cnt bits rng out,
    0 <= i -> i + Z.of_nat k = cnt -> cnt < 2 ^ size_t_bits -> (k < fuel)%nat ->
    Gen_Prime.loop random_prime fuel i cnt bits rng out =
    Returned
      ((out ++ concat EmptyString
                 (map (fun p => (dec p ++ newline)%string)
                      (fst (Gen_Prime.draws random_prime k bits rng))))%string,
       snd (Gen_Prime.draws random_prime k bits rng)).
Proof.
  induction k as [| k IH]; intros fuel i cnt bits rng out Hi Hcnt Hmax Hfuel;
    (destruct fuel as [| fuel]; [lia |]); cbn [Gen_Prime.loop Gen_Prime.draws].
  - assert (E : (i =? cnt) = true) by (apply Z.eqb_eq; lia).
    rewrite E. simpl. rewrite string_app_nil_r. reflexivity.
  - assert (E : (i =? cnt) = false) by (apply Z.eqb_neq; lia).
    rewrite E. cbn [negb].
    destruct (random_prime rng bits) as [p rng1].
    assert (Hw : size_t (i + 1) = i + 1).
    { unfold size_t. apply Z.mod_small. lia. }
    rewrite Hw, (IH fuel (i + 1) cnt bits rng1) by lia.
    destruct (Gen_Prime.draws random_prime k bits rng1) as [ps rng2].
    cbn [fst snd map]. rewrite concat_empty_cons, !string_app_assoc. reflexivity.
Qed.

(** X9. [gen_prime] writes one line per value, [cnt] lines in all (none
    for [cnt = 0]): the values the library hands out one after the other
    from the state of the generator, so that whatever holds of every value
    of [random_prime] for [bits] holds of every value written. *)
Theorem gen_prime_writes_count
    (fuel : nat) (bits cnt : Z) (rng : RandomNumberGenerator) :
  0 <= cnt < 2 ^ size_t_bits -> (Z.to_nat cnt < fuel)%nat ->
  exists ps rng',
    Gen_Prime.draws random_prime (Z.to_nat cnt) bits rng = (ps, rng') /\
    Gen_Prime.go random_prime fuel bits cnt rng =
    Returned (concat EmptyString (map (fun p => (dec p ++ newline)%string) ps), rng') /\
    Z.of_nat (List.length ps) = cnt /\
    forall P : Z -> Prop,
      (forall g, P (fst (random_prime g bits))) -> Forall P ps.
Proof.
  intros Hcnt Hfuel.
  pose proof (gen_prime_loop_spec (Z.to_nat cnt) fuel 0 cnt bits rng EmptyString
                ltac:(lia) ltac:(lia) ltac:(lia) Hfuel) as Hloop.
  pose proof (draws_length (Z.to_nat cnt) bits rng) as Hlen.
  pose proof (fun P => draws_all P (Z.to_nat cnt) bits rng) as Hall.
  destruct (Gen_Prime.draws random_prime (Z.to_nat cnt) bits rng) as [ps rng'].
  exists ps, rng'. split; [reflexivity |]. split; [exact Hloop |].
  split; [simpl in Hlen; lia | exact Hall].
Qed.

End GenPrime.

(** ** [probe_providers_of] *)

Section ProbeProviders.

Variable T : Type.
Variable create : string -> string -> option T.

Lemma probe_fold (algo_spec : string) (possible providers : list string) :
  fold_left
    (fun providers prov =>
       match create algo_spec prov with
       | Some _ => providers ++ [prov]
       | None => providers
       end)
    possible providers =
  providers ++ filter (SCAN.available T create algo_spec) possible.
Proof.
  revert providers. induction possible as [| prov possible IH]; intros providers; simpl.
  - rewrite app_nil_r. reflexivity.
  - rewrite IH. unfold SCAN.available at 2.
    destruct (create algo_spec prov); [rewrite <- app_assoc |]; reflexivity.
Qed.

(** X10. [probe_providers_of] returns the providers of [possible] for
    which [T::create] does not come back null, in the order of [possible]
    and each as often as it is listed there: what it returns is never
    longer than [possible], a provider is in it exactly when it is listed
    and available, and with the default list it is empty or ["base"]. *)
Theorem probe_providers_of_spec (algo_spec : string) (possible : list string) :
  SCAN.probe_providers_of T create algo_spec possible =
    filter (SCAN.available T create algo_spec) possible /\
  (forall prov,
     In prov (SCAN.probe_providers_of T create algo_spec possible) <->
     In prov possible /\ create algo_spec prov <> None) /\
  (List.length (SCAN.probe_providers_of T create algo_spec possible)
   <= List.length possible)%nat /\
  (SCAN.probe_providers_of T create algo_spec ["base"%string] = [] \/
   SCAN.probe_providers_of T create algo_spec ["base"%string] = ["base"%string]).
Proof.
  assert (Heq : forall l, SCAN.probe_providers_of T create algo_spec l =
                          filter (SCAN.available T create algo_spec) l).
  { intros l. unfold SCAN.probe_providers_of. rewrite probe_fold. reflexivity. }
  split; [apply Heq |]. split; [| split].
  - intros prov. rewrite Heq, filter_In. unfold SCAN.available.
    destruct (create algo_spec prov); split; intros [Hin H]; split;
      try assumption; try discriminate; try reflexivity; congruence.
  - rewrite Heq. apply filter_length_le.
  - rewrite Heq. simpl. destruct (SCAN.available T create algo_spec "base");
      [right | left]; reflexivity.
Qed.

End ProbeProviders.

(** ** The retry loop of [factorize] *)

Section RetryLoop.

Context `{Lib : Botan}.

(** X12. The loop [while(a_factor == 0)] of [factorize] on [n > 1] is
    only left with a proper divisor of [n]: the division [n /= a_factor]
    that follows is exact, and both the factor handed to the recursive
    call and the quotient the loop goes on with are greater than 1 and
    smaller than [n]. *)
Theorem rho_retry_exits_with_proper_divisor
    (fuel : nat) (n : Z) (rng rng' : RandomNumberGenerator) (a_factor : Z) :
  1 < n ->
  Factor.rho_retry fuel n rng = Returned (a_factor, rng') ->
  1 < a_factor < n /\ (a_factor | n) /\
  n = a_factor * (n / a_factor) /\ 1 < n / a_factor < n.
Proof.
  intros Hn Hrun.
  destruct (rho_retry_divisor _ _ _ _ _ Hn Hrun) as [Ha [c Hc]].
  assert (Hq : n / a_factor = c) by (rewrite Hc; apply Z.div_mul; lia).
  rewrite Hq. split; [exact Ha |]. split; [exists c; exact Hc |].
  split; [lia | nia].
Qed.

End RetryLoop.

(** ** Budgets and outcomes

    Nothing in the factor command throws: a call is still running or has
    returned, and what it returns does not depend on the budget. *)

Section Budgets.

Context `{Lib : Botan}.

Lemma even_loop_no_throw (fuel : nat) (n : Z) (factors : list Z) (e : exn) :
  Factor.even_loop fuel n factors <> Thrown e.
Proof.
  revert n factors. induction fuel as [| fuel IH]; intros n factors; simpl;
    [discriminate |].
  destruct (Z.even n); [apply IH | discriminate].
Qed.

Lemma push_loop_no_throw (fuel : nat) (x q : Z) (factors : list Z) (e : exn) :
  Factor.push_loop fuel x q factors <> Thrown e.
Proof.
  revert x factors. induction fuel as [| fuel IH]; intros x factors; simpl;
    [discriminate |].
  destruct (x =? 1); [discriminate | apply IH].
Qed.

Lemma table_loop_no_throw (fuel : nat) (l : list Z) (n : Z) (factors : list Z) (e : exn) :
  Factor.table_loop fuel l n factors <> Thrown e.
Proof.
  revert n factors. induction l as [| q rest IH]; intros n factors; simpl;
    [discriminate |].
  destruct (n <? q); [discriminate |].
  destruct (negb (gcd n q =? 1)); [| apply IH].
  destruct (Factor.push_loop fuel (gcd n q) q factors) as [factors' | e' |] eqn:Epush;
    simpl; [apply IH | | discriminate].
  exfalso. exact (push_loop_no_throw _ _ _ _ _ Epush).
Qed.

Lemma remove_small_factors_no_throw (fuel : nat) (n : Z) (e : exn) :
  Factor.remove_small_factors fuel n <> Thrown e.
Proof.
  unfold Factor.remove_small_factors.
  destruct (Factor.even_loop fuel n []) as [[n1 factors] | e' |] eqn:Eeven; simpl;
    [apply table_loop_no_throw | | discriminate].
  exfalso. exact (even_loop_no_throw _ _ _ _ Eeven).
Qed.

Lemma rho_loop_no_throw
    (fuel : nat) (n : Z) (one x y z : Montgomery_Int) (i k : Z) (e : exn) :
  Factor.rho_loop fuel n one x y z i k <> Thrown e.
Proof.
  revert x y z i k. induction fuel as [| fuel IH]; intros x y z i k; simpl;
    [discriminate |].
  destruct (Factor.rho_iteration n one x y z i k); try discriminate. apply IH.
Qed.

Lemma rho_no_throw (fuel : nat) (n : Z) (rng : RandomNumberGenerator) (e : exn) :
  Factor.rho fuel n rng <> Thrown e.
Proof.
  unfold Factor.rho. destruct (random_integer rng 2 (n - 3)) as [x0 rng1].
  match goal with
  | |- bind ?m _ <> _ => destruct m as [d | e' |] eqn:Eloop
  end; simpl; try discriminate.
  exfalso. exact (rho_loop_no_throw _ _ _ _ _ _ _ _ _ Eloop).
Qed.

(** A call that returns [r] within some budget is, within any budget,
    still running or has returned [r]. *)
Lemma remove_small_factors_budget (fuel0 fuel : nat) (n : Z) r :
  Factor.remove_small_factors fuel0 n = Returned r ->
  Factor.remove_small_factors fuel n = Running \/
  Factor.remove_small_factors fuel n = Returned r.
Proof.
  intros Hrun.
  destruct (Factor.remove_small_factors fuel n) as [r' | e |] eqn:E.
  - right.
    pose proof (remove_small_factors_mono _ (Nat.max fuel0 fuel) _ _ Hrun
                  (Nat.le_max_l _ _)) as H0.
    pose proof (remove_small_factors_mono _ (Nat.max fuel0 fuel) _ _ E
                  (Nat.le_max_r _ _)) as H1.
    congruence.
  - exfalso. exact (remove_small_factors_no_throw _ _ _ E).
  - left. reflexivity.
Qed.

Lemma rho_budget (fuel0 fuel : nat) (n : Z) (rng : RandomNumberGenerator) r :
  Factor.rho fuel0 n rng = Returned r ->
  Factor.rho fuel n rng = Running \/ Factor.rho fuel n rng = Returned r.
Proof.
  intros Hrun.
  destruct (Factor.rho fuel n rng) as [r' | e |] eqn:E.
  - right.
    pose proof (rho_mono _ (Nat.max fuel0 fuel) _ _ _ Hrun (Nat.le_max_l _ _)) as H0.
    pose proof (rho_mono _ (Nat.max fuel0 fuel) _ _ _ E (Nat.le_max_r _ _)) as H1.
    congruence.
  - exfalso. exact (rho_no_throw _ _ _ _ E).
  - left. reflexivity.
Qed.

End Budgets.

(** ** [rho] over any faithful arithmetic

    With integers that behave as residues modulo [n], a run of the loop
    of [rho] is the run on the residues themselves. *)

Section ResidueArithmetic.

Context `{Lib : Botan}.

Variable n : Z.
Variable members : Montgomery_Int -> Prop.

Hypothesis arith : modular_arithmetic n members.
Hypothesis bits : 32 <= size_t_bits.

Lemma size_t_small (v : Z) : 0 <= v < 2 ^ 32 -> size_t v = v.
Proof.
  intros Hv. unfold size_t. apply Z.mod_small.
  assert (2 ^ 32 <= 2 ^ size_t_bits) by (apply Z.pow_le_mono_r; lia). lia.
Qed.

Lemma reference_size_t_small (v : Z) :
  0 <= v < 2 ^ 32 -> size_t (H := Reference.library) v = v.
Proof.
  intros Hv. unfold size_t. cbn [size_t_bits Reference.library].
  apply Z.mod_small. assert (2 ^ 32 <= 2 ^ 64) by (apply Z.pow_le_mono_r; lia). lia.
Qed.

Lemma rho_iteration_residues (one x y z : Montgomery_Int) (i k : Z) :
  members one -> members x -> members y -> members z ->
  0 <= i -> i + 1 < 2 ^ 32 -> 0 <= k -> 2 * k < 2 ^ 32 ->
  match Factor.rho_iteration n one x y z i k,
        Factor.rho_iteration (Lib := Reference.library) n
          (n, value one) (n, value x) (n, value y) (n, value z) i k with
  | Factor.Rho_break, Factor.Rho_break => True
  | Factor.Rho_return d, Factor.Rho_return d' => d = d'
  | Factor.Rho_continue x' y' z' i' k', Factor.Rho_continue xr yr zr ir kr =>
      members x' /\ members y' /\ members z' /\
      xr = (n, value x') /\ yr = (n, value y') /\ zr = (n, value z') /\
      ir = i' /\ kr = k' /\ i' = i + 1 /\ 0 <= k' <= Z.max k (2 * i')
  | _, _ => False
  end.
Proof.
  intros Hone Hx Hy Hz Hi Hi1 Hk Hk2.
  destruct (arith_square n members arith x Hx) as [Hsq Vsq].
  destruct (arith_add n members arith _ _ Hsq Hone) as [Hx' Vx'].
  destruct (arith_sub n members arith _ _ Hy Hx') as [Ht Vt].
  destruct (arith_mul n members arith _ _ Hz Ht) as [Hz' Vz'].
  unfold Factor.rho_iteration, Factor.rho_next.
  rewrite (size_t_small (i + 1)), (reference_size_t_small (i + 1)) by lia.
  rewrite (size_t_small (2 * k)), (reference_size_t_small (2 * k)) by lia.
  cbn [square_this add sub mul_by value Reference.library].
  unfold Reference.residue_square, Reference.residue_add, Reference.residue_sub,
    Reference.residue_mul.
  cbn [fst snd].
  rewrite <- Vsq, <- Vx', <- Vt, <- Vz'.
  assert (Hmod : value (mul_by z (sub y (add (square_this x) one))) mod n =
                 value (mul_by z (sub y (add (square_this x) one)))).
  { rewrite Vz'. apply Zmod_mod. }
  rewrite Hmod.
  destruct (0xFFFF0000 <=? i + 1); [exact I |].
  destruct ((i + 1 =? k) || ((i + 1) mod 128 =? 0)).
  - destruct (gcd (value (mul_by z (sub y (add (square_this x) one)))) n =? n);
      [exact I |].
    destruct (negb (gcd (value (mul_by z (sub y (add (square_this x) one)))) n =? 1));
      [reflexivity |].
    destruct (i + 1 =? k) eqn:E; repeat split; try assumption; try reflexivity;
      try (apply Z.eqb_eq in E); lia.
  - destruct (i + 1 =? k) eqn:E; repeat split; try assumption; try reflexivity;
      try (apply Z.eqb_eq in E); lia.
Qed.

Lemma rho_loop_residues (one : Montgomery_Int) (fuel : nat) :
  members one ->
  forall x y z i k,
    members x -> members y -> members z ->
    0 <= i -> 0 <= k <= 2 * i -> 4 * (i + Z.of_nat fuel) < 2 ^ 32 ->
    Factor.rho_loop fuel n one x y z i k =
    Factor.rho_loop (Lib := Reference.library) fuel n
      (n, value one) (n, value x) (n, value y) (n, value z) i k.
Proof.
  intros Hone. induction fuel as [| fuel IH]; intros x y z i k Hx Hy Hz Hi Hk Hfuel;
    [reflexivity |].
  cbn [Factor.rho_loop].
  pose proof (rho_iteration_residues one x y z i k Hone Hx Hy Hz Hi
                ltac:(lia) ltac:(lia) ltac:(lia)) as Hstep.
  destruct (Factor.rho_iteration n one x y z i k) as [| d | x' y' z' i' k'];
    destruct (Factor.rho_iteration (Lib := Reference.library) n
                (n, value one) (n, value x) (n, value y) (n, value z) i k)
      as [| d' | xr yr zr ir kr];
    try contradiction; try reflexivity.
  - rewrite Hstep. reflexivity.
  - destruct Hstep as [Hx' [Hy' [Hz' [-> [-> [-> [-> [-> [Hi' Hk']]]]]]]]].
    apply IH; try assumption; lia.
Qed.

(** One attempt of [rho] is the loop on the residues, from the residue
    [v] that the start value stands for. *)
Lemma rho_residues (fuel : nat) (rng : RandomNumberGenerator) :
  4 * (1 + Z.of_nat fuel) < 2 ^ 32 ->
  exists v,
    0 <= v < n /\
    Factor.rho fuel n rng =
    (' d <- Factor.rho_loop (Lib := Reference.library) fuel n
              (n, 1 mod n) (n, v) (n, v) (n, 1 mod n) 1 2 ;;
     Returned (d, snd (random_integer rng 2 (n - 3)))).
Proof.
  intros Hfuel. unfold Factor.rho.
  destruct (random_integer rng 2 (n - 3)) as [x0 rng1]. cbn [snd].
  pose proof (arith_make n members arith (R1 (make_params n)) false) as Hone.
  pose proof (arith_make n members arith x0 false) as Hx.
  exists (value (make_int (make_params n) x0 false)).
  split; [apply (arith_range n members arith); exact Hx |].
  rewrite (rho_loop_residues _ fuel Hone _ _ _ 1 2 Hx Hx Hone) by lia.
  rewrite (arith_one n members arith). reflexivity.
Qed.

End ResidueArithmetic.

(** ** Inputs on which [factorize] does not return

    125 = 5 * 5 * 5.  [remove_small_factors] takes one 5 out and leaves
    25, which the oracle rejects.  Modulo 25 the sequence of [rho] reaches
    the cycle 1, 2, 5 within three steps from any start value, so that the
    check of the turn [i = 8] finds [d = n] and the attempt fails; the loop
    [while(a_factor == 0)] of [factorize] then starts the next attempt, and
    so on without end. *)

(** On the residues modulo 25 every attempt fails at the turn [i = 8],
    the seventh of the loop, whatever the start value [v]. *)
Lemma reference_rho_loop_25 (v : Z) :
  0 <= v < 25 ->
  Factor.rho_loop (Lib := Reference.library) 7 25 (25, 1) (25, v) (25, v) (25, 1) 1 2 =
  Returned 0.
Proof.
  intros Hv.
  assert (Hcases :
    v = 0 \/ v = 1 \/ v = 2 \/ v = 3 \/ v = 4 \/ v = 5 \/ v = 6 \/ v = 7 \/ v = 8 \/
    v = 9 \/ v = 10 \/ v = 11 \/ v = 12 \/ v = 13 \/ v = 14 \/ v = 15 \/ v = 16 \/
    v = 17 \/ v = 18 \/ v = 19 \/ v = 20 \/ v = 21 \/ v = 22 \/ v = 23 \/ v = 24) by lia.
  repeat (destruct Hcases as [-> | Hcases]; [vm_compute; reflexivity |]).
  subst v. vm_compute. reflexivity.
Qed.

Lemma filter_only (f : Z -> bool) (a : Z) (l : list Z) :
  StronglySorted Z.lt l -> In a l -> f a = true ->
  (forall p, In p l -> f p = true -> p = a) ->
  filter f l = [a].
Proof.
  intros Hs Hin Ha Honly. induction l as [| q rest IH]; [contradiction |].
  apply StronglySorted_inv in Hs. destruct Hs as [Hs Hall].
  rewrite Forall_forall in Hall. simpl.
  destruct Hin as [-> | Hin].
  - rewrite Ha. f_equal. apply filter_none. intros p Hp.
    destruct (f p) eqn:E; [| reflexivity].
    pose proof (Honly p (or_intror Hp) E). pose proof (Hall p Hp). lia.
  - destruct (f q) eqn:E.
    + pose proof (Honly q (or_introl eq_refl) E). pose proof (Hall a Hin). lia.
    + apply IH; [exact Hs | exact Hin |].
      intros p Hp. apply Honly. right. exact Hp.
Qed.

Section FactorizeNeverReturns.

Context `{Lib : Botan}.

Variable members : Montgomery_Int -> Prop.

Hypothesis arith : modular_arithmetic 25 members.
Hypothesis bits : 32 <= size_t_bits.
Hypothesis oracle_rejects_25 : forall g, fst (is_prime 25 g) = false.

Lemma rho_25 (fuel : nat) (rng : RandomNumberGenerator) :
  Factor.rho fuel 25 rng = Running \/
  Factor.rho fuel 25 rng = Returned (0, snd (random_integer rng 2 (25 - 3))).
Proof.
  apply (rho_budget 7).
  destruct (rho_residues 25 members arith bits 7 rng ltac:(reflexivity))
    as [v [Hv Hrho]].
  rewrite Hrho. change (1 mod 25) with 1.
  rewrite (reference_rho_loop_25 v Hv). reflexivity.
Qed.

Lemma rho_retry_25 (fuel : nat) (rng : RandomNumberGenerator) :
  Factor.rho_retry fuel 25 rng = Running.
Proof.
  revert rng. induction fuel as [| fuel IH]; intros rng; [reflexivity |].
  cbn [Factor.rho_retry].
  destruct (rho_25 fuel rng) as [H | H]; rewrite H; [reflexivity |].
  cbn [bind Z.eqb]. apply IH.
Qed.

Lemma factorize_loop_25
    (self : Z -> RandomNumberGenerator -> outcome (list Z * RandomNumberGenerator))
    (fuel : nat) (factors : list Z) (rng : RandomNumberGenerator) :
  Factor.factorize_loop self fuel 25 factors rng = Running.
Proof.
  destruct fuel as [| fuel]; [reflexivity |].
  cbn [Factor.factorize_loop Z.eqb Pos.eqb].
  pose proof (oracle_rejects_25 rng) as Horacle.
  destruct (is_prime 25 rng) as [is_p rng1]. cbn [fst] in Horacle. subst is_p.
  rewrite rho_retry_25. reflexivity.
Qed.

(** Once the small factors leave 25, [factorize] is caught. *)
Lemma factorize_stuck (fuel0 : nat) (n : Z) (factors : list Z) :
  Factor.remove_small_factors fuel0 n = Returned (25, factors) ->
  forall fuel rng, Factor.factorize fuel n rng = Running.
Proof.
  intros Hsmall fuel rng. destruct fuel as [| fuel]; [reflexivity |].
  cbn [Factor.factorize].
  destruct (remove_small_factors_budget fuel0 fuel n _ Hsmall) as [H | H];
    rewrite H; [reflexivity |].
  cbn [bind]. apply factorize_loop_25.
Qed.

Hypothesis table_ok : table_of_primes.
Hypothesis table_sorted : table_ascending.
Hypothesis table_has_5 : In 5 PRIMES.

Lemma prime_5 : Z.prime 5.
Proof.
  unfold table_of_primes in table_ok. rewrite Forall_forall in table_ok. auto.
Qed.

Lemma odd_prime_factor_is_5 (twos : list Z) (n p : Z) :
  n = product (twos ++ [5; 5; 5]) -> Forall (eq 2) twos ->
  In p PRIMES -> divides_b n p && negb (p =? 2) = true -> p = 5.
Proof.
  intros Hn Htwos Hp Htest. apply andb_prop in Htest. destruct Htest as [Hdiv H2].
  assert (Hprime : Z.prime p).
  { unfold table_of_primes in table_ok. rewrite Forall_forall in table_ok. auto. }
  pose proof (Z.prime_ge_2 p Hprime) as Hge.
  apply divides_b_spec in Hdiv; [| lia].
  apply negb_true_iff, Z.eqb_neq in H2.
  rewrite Hn in Hdiv.
  apply prime_divides_product in Hdiv; [| exact Hprime |].
  - apply in_app_or in Hdiv. destruct Hdiv as [Hin | Hin].
    + rewrite Forall_forall in Htwos. pose proof (Htwos p Hin). lia.
    + simpl in Hin. lia.
  - apply Forall_app. split.
    + apply Forall_forall. intros q Hq. rewrite Forall_forall in Htwos.
      rewrite <- (Htwos q Hq). exact Z.prime_2.
    + pose proof prime_5 as H5. repeat (apply Forall_cons; [exact H5 |]). constructor.
Qed.

Lemma remove_small_factors_125 :
  Factor.remove_small_factors 2 125 = Returned (25, [5]).
Proof.
  rewrite (remove_small_factors_run 2 125 table_ok table_sorted) by (reflexivity || lia).
  unfold small_factors. change (val2 125) with 0%nat. cbn [repeat app].
  rewrite (filter_only _ 5 PRIMES table_sorted table_has_5).
  - reflexivity.
  - reflexivity.
  - intros p Hp. apply (odd_prime_factor_is_5 [] 125 p); [reflexivity | constructor | exact Hp].
Qed.

Lemma remove_small_factors_250 :
  Factor.remove_small_factors 3 250 = Returned (25, [2; 5]).
Proof.
  rewrite (remove_small_factors_run 3 250 table_ok table_sorted) by (reflexivity || lia).
  unfold small_factors. change (val2 250) with 1%nat. cbn [repeat app].
  rewrite (filter_only _ 5 PRIMES table_sorted table_has_5).
  - reflexivity.
  - reflexivity.
  - intros p Hp. apply (odd_prime_factor_is_5 [2] 250 p);
      [reflexivity | repeat constructor | exact Hp].
Qed.

(** C1. The round-trip law does not hold on 125: [factorize] returns no
    vector at all, whatever the budget and the state of the generator.
    This is so with any arithmetic that is faithful modulo 25, any oracle
    that rejects 25 and any ascending table of primes that holds 5: the
    small factors leave 25, on which no attempt of [rho] succeeds. *)
Theorem factorize_125_never_returns (fuel : nat) (rng : RandomNumberGenerator) :
  Factor.remove_small_factors 2 125 = Returned (25, [5]) /\
  (forall fuel' g, exists g',
     Factor.rho (7 + fuel') 25 g = Returned (0, g')) /\
  Factor.factorize fuel 125 rng = Running.
Proof.
  split; [exact remove_small_factors_125 |]. split.
  - intros fuel' g. exists (snd (random_integer g 2 (25 - 3))).
    destruct (rho_25 7 g) as [H | H].
    + destruct (rho_residues 25 members arith bits 7 g ltac:(reflexivity))
        as [v [Hv Hrho]].
      rewrite Hrho in H. change (1 mod 25) with 1 in H.
      rewrite (reference_rho_loop_25 v Hv) in H. discriminate.
    + apply (rho_mono 7); [exact H | lia].
  - apply (factorize_stuck 2 125 [5]). exact remove_small_factors_125.
Qed.

(** C8. On the even number 250 = 2 * 5 * 5 * 5 the factor 2 is found
    once, as the 2-adic valuation says, but no vector is returned:
    [remove_small_factors] leaves 25 with [[2; 5]], and [factorize] stays in
    the retry loop around [rho] whatever the budget and the state of the
    generator (same library as for C1). *)
Theorem factorize_250_never_returns (fuel : nat) (rng : RandomNumberGenerator) :
  Factor.remove_small_factors 3 250 = Returned (25, [2; 5]) /\
  val2 250 = 1%nat /\
  Factor.factorize fuel 250 rng = Running.
Proof.
  split; [exact remove_small_factors_250 |]. split; [reflexivity |].
  apply (factorize_stuck 3 250 [2; 5]). exact remove_small_factors_250.
Qed.

End FactorizeNeverReturns.

(** The reference library is faithful modulo any [n > 0]. *)
Lemma reference_arithmetic (n : Z) :
  0 < n -> modular_arithmetic (H := Reference.library) n (fun x : Z * Z => fst x = n).
Proof.
  intros Hn. constructor; cbn [make_int make_params R1 value square_this add sub mul_by
                               Reference.library].
  - reflexivity.
  - intros x Hx. rewrite Hx. apply Z.mod_pos_bound. exact Hn.
  - cbn [fst snd]. apply Zmod_mod.
  - intros x Hx. unfold Reference.residue_square. cbn [fst snd]. rewrite Hx.
    split; [reflexivity |]. rewrite Zmod_mod. apply Zmult_mod.
  - intros x y Hx Hy. unfold Reference.residue_add. cbn [fst snd]. rewrite Hx, Hy.
    split; [reflexivity |]. rewrite Zmod_mod. apply Zplus_mod.
  - intros x y Hx Hy. unfold Reference.residue_sub. cbn [fst snd]. rewrite Hx, Hy.
    split; [reflexivity |]. rewrite Zmod_mod. apply Zminus_mod.
  - intros x y Hx Hy. unfold Reference.residue_mul. cbn [fst snd]. rewrite Hx, Hy.
    split; [reflexivity |]. rewrite Zmod_mod. apply Zmult_mod.
Qed.

Lemma reference_rejects_25 : forall g : Z, fst (is_prime 25 g) = false.
Proof. intros g. reflexivity. Qed.

Lemma reference_table_has_5 : In 5 PRIMES.
Proof. right; left; reflexivity. Qed.

Lemma factorize_125_never_returns_witness :
  Factor.remove_small_factors 2 125 = Returned (25, [5]) /\
  (forall fuel' g, exists g', Factor.rho (7 + fuel') 25 g = Returned (0, g')) /\
  Factor.factorize 1000 125 0 = Running.
Proof.
  apply (factorize_125_never_returns (Lib := Reference.library)
           (fun x : Z * Z => fst x = 25)).
  - apply reference_arithmetic. reflexivity.
  - discriminate.
  - exact reference_rejects_25.
  - exact reference_table_of_primes.
  - exact reference_table_ascending.
  - exact reference_table_has_5.
Defined.

Lemma factorize_250_never_returns_witness :
  Factor.remove_small_factors 3 250 = Returned (25, [2; 5]) /\
  val2 250 = 1%nat /\
  Factor.factorize 1000 250 7 = Running.
Proof.
  apply (factorize_250_never_returns (Lib := Reference.library)
           (fun x : Z * Z => fst x = 25)).
  - apply reference_arithmetic. reflexivity.
  - discriminate.
  - exact reference_rejects_25.
  - exact reference_table_of_primes.
  - exact reference_table_ascending.
  - exact reference_table_has_5.
Defined.

(** ** Who sees a write: the integers of [factorize]

    In the model with a store, [remove_small_factors] changes the object
    it is handed, and [factorize] does not: it works on an object of its
    own, gone when it returns. *)

Section Store.

Import ByReference.

Lemma write_length (s : store) (a : ref) (v : Z) :
  List.length (write s a v) = List.length s.
Proof.
  revert a. induction s as [| c s IH]; intros a; [reflexivity |].
  destruct a as [| a]; simpl; [reflexivity | rewrite IH; reflexivity].
Qed.

Lemma read_write_same (s : store) (a : ref) (v : Z) :
  (a < List.length s)%nat -> read (write s a v) a = v.
Proof.
  revert a. induction s as [| c s IH]; intros a Ha; simpl in Ha; [lia |].
  destruct a as [| a]; [reflexivity |]. apply IH. lia.
Qed.

Lemma read_write_other (s : store) (a b : ref) (v : Z) :
  a <> b -> read (write s a v) b = read s b.
Proof.
  revert a b. induction s as [| c s IH]; intros a b Hab; [reflexivity |].
  destruct a as [| a]; destruct b as [| b]; try reflexivity; try congruence.
  apply IH. congruence.
Qed.

Lemma write_write (s : store) (a : ref) (v w : Z) :
  write (write s a v) a w = write s a w.
Proof.
  revert a. induction s as [| c s IH]; intros a; [reflexivity |].
  destruct a as [| a]; simpl; [reflexivity | rewrite IH; reflexivity].
Qed.

Lemma write_read (s : store) (a : ref) : write s a (read s a) = s.
Proof.
  revert a. induction s as [| c s IH]; intros a; [reflexivity |].
  destruct a as [| a]; simpl; [reflexivity |].
  unfold read in IH. rewrite IH. reflexivity.
Qed.

Lemma read_last (s : store) (v : Z) (rest : store) :
  read (s ++ v :: rest) (List.length s) = v.
Proof.
  unfold read. rewrite app_nth2 by lia. rewrite Nat.sub_diag. reflexivity.
Qed.

Lemma read_old (s rest : store) (a : ref) :
  (a < List.length s)%nat -> read (s ++ rest) a = read s a.
Proof.
  intros Ha. unfold read. apply app_nth1. exact Ha.
Qed.

Lemma write_last (s : store) (v w : Z) (rest : store) :
  write (s ++ v :: rest) (List.length s) w = s ++ w :: rest.
Proof.
  induction s as [| c s IH]; simpl; [reflexivity | rewrite IH; reflexivity].
Qed.

Lemma leave_declared (s rest : store) : leave (s ++ rest) (List.length s) = s.
Proof.
  unfold leave. rewrite firstn_app, Nat.sub_diag, firstn_all. simpl.
  apply app_nil_r.
Qed.

End Store.

Section ByReferenceProperties.

Context `{Lib : Botan}.

(** The even loop leaves in the object what the loop on values leaves in
    its variable. *)
Lemma even_loop_by_reference (fuel : nat) :
  forall (a : ByReference.ref) (factors : list Z) (s : ByReference.store),
    (a < List.length s)%nat ->
    ByReference.even_loop fuel a factors s =
    match Factor.even_loop fuel (ByReference.read s a) factors with
    | Returned (n', F) => Returned (F, ByReference.write s a n')
    | Thrown e => Thrown e
    | Running => Running
    end.
Proof.
  induction fuel as [| fuel IH]; intros a factors s Ha; [reflexivity |].
  cbn [ByReference.even_loop Factor.even_loop].
  destruct (Z.even (ByReference.read s a)).
  - rewrite IH by (rewrite write_length; exact Ha).
    rewrite read_write_same by exact Ha.
    destruct (Factor.even_loop fuel (ByReference.read s a / 2) (factors ++ [2]))
      as [[n' F] | e |]; try reflexivity.
    rewrite write_write. reflexivity.
  - rewrite write_read. reflexivity.
Qed.

Lemma table_loop_by_reference (fuel : nat) (primes : list Z) :
  forall (a : ByReference.ref) (factors : list Z) (s : ByReference.store),
    (a < List.length s)%nat ->
    ByReference.table_loop fuel primes a factors s =
    match Factor.table_loop fuel primes (ByReference.read s a) factors with
    | Returned (n', F) => Returned (F, ByReference.write s a n')
    | Thrown e => Thrown e
    | Running => Running
    end.
Proof.
  induction primes as [| prime rest IH]; intros a factors s Ha;
    cbn [ByReference.table_loop Factor.table_loop].
  - rewrite write_read. reflexivity.
  - destruct (ByReference.read s a <? prime); [rewrite write_read; reflexivity |].
    destruct (negb (gcd (ByReference.read s a) prime =? 1)).
    + destruct (Factor.push_loop fuel (gcd (ByReference.read s a) prime) prime factors)
        as [factors' | e |]; cbn [bind]; try reflexivity.
      rewrite IH by (rewrite write_length; exact Ha).
      rewrite read_write_same by exact Ha.
      destruct (Factor.table_loop fuel rest
                  (ByReference.read s a / gcd (ByReference.read s a) prime) factors')
        as [[n' F] | e |]; try reflexivity.
      rewrite write_write. reflexivity.
    + apply IH. exact Ha.
Qed.

Lemma remove_small_factors_by_reference
    (fuel : nat) (a : ByReference.ref) (s : ByReference.store) :
  (a < List.length s)%nat ->
  ByReference.remove_small_factors fuel a s =
  match Factor.remove_small_factors fuel (ByReference.read s a) with
  | Returned (n', F) => Returned (F, ByReference.write s a n')
  | Thrown e => Thrown e
  | Running => Running
  end.
Proof.
  intros Ha. unfold ByReference.remove_small_factors, Factor.remove_small_factors.
  rewrite even_loop_by_reference by exact Ha.
  destruct (Factor.even_loop fuel (ByReference.read s a) []) as [[n1 F1] | e |];
    cbn [bind]; try reflexivity.
  rewrite table_loop_by_reference by (rewrite write_length; exact Ha).
  rewrite read_write_same by exact Ha.
  destruct (Factor.table_loop fuel PRIMES n1 F1) as [[n' F] | e |]; try reflexivity.
  rewrite write_write. reflexivity.
Qed.

(** The retry loop writes to [a_factor] (the object after [n]) and leaves
    [n] alone. *)
Lemma rho_retry_by_reference (fuel : nat) :
  forall (s : ByReference.store) (m c : Z) (rng : RandomNumberGenerator),
    ByReference.rho_retry fuel (List.length s) (S (List.length s)) rng (s ++ [m; c]) =
    match Factor.rho_retry fuel m rng with
    | Returned (d, rng') => Returned (s ++ [m; d], rng')
    | Thrown e => Thrown e
    | Running => Running
    end.
Proof.
  induction fuel as [| fuel IH]; intros s m c rng; [reflexivity |].
  cbn [ByReference.rho_retry Factor.rho_retry].
  rewrite read_last.
  destruct (Factor.rho fuel m rng) as [[d rng1] | e |]; cbn [bind]; try reflexivity.
  assert (Hw : ByReference.write (s ++ [m; c]) (S (List.length s)) d = s ++ [m; d]).
  { change (s ++ [m; c]) with (s ++ [m] ++ [c]). rewrite app_assoc.
    replace (S (List.length s)) with (List.length (s ++ [m]))
      by (rewrite length_app; simpl; lia).
    rewrite write_last. rewrite <- app_assoc. reflexivity. }
  assert (Hr : ByReference.read (s ++ [m; d]) (S (List.length s)) = d).
  { change (s ++ [m; d]) with (s ++ [m] ++ [d]). rewrite app_assoc.
    replace (S (List.length s)) with (List.length (s ++ [m]))
      by (rewrite length_app; simpl; lia).
    apply read_last. }
  rewrite Hw, Hr.
  destruct (d =? 0); [apply IH | reflexivity].
Qed.

(** The main loop, on the local [n] of [factorize] (the last object of the
    store): if the recursive call leaves the store as it finds it, the loop
    changes nothing but [n]. *)
Lemma factorize_loop_by_reference
    (self : Z -> RandomNumberGenerator -> outcome (list Z * RandomNumberGenerator))
    (self_ref : ByReference.ref -> RandomNumberGenerator -> ByReference.store ->
                outcome (list Z * RandomNumberGenerator * ByReference.store)) :
  (forall a g st, (a < List.length st)%nat ->
     self_ref a g st =
     match self (ByReference.read st a) g with
     | Returned (fs, g') => Returned (fs, g', st)
     | Thrown e => Thrown e
     | Running => Running
     end) ->
  forall fuel (s : ByReference.store) (m : Z) factors rng,
    match ByReference.factorize_loop self_ref fuel (List.length s) factors rng (s ++ [m]),
          Factor.factorize_loop self fuel m factors rng with
    | Returned (fs, g, s'), Returned (fs0, g0) =>
        fs = fs0 /\ g = g0 /\ exists m', s' = s ++ [m']
    | Thrown e, Thrown e0 => e = e0
    | Running, Running => True
    | _, _ => False
    end.
Proof.
  intros Hself.
  induction fuel as [| fuel IH]; intros s m factors rng; [exact I |].
  cbn [ByReference.factorize_loop Factor.factorize_loop].
  rewrite read_last.
  destruct (m =? 1); [repeat split; exists m; reflexivity |].
  destruct (is_prime m rng) as [is_p rng1].
  destruct is_p; [repeat split; exists m; reflexivity |].
  unfold ByReference.declare.
  replace (List.length (s ++ [m])) with (S (List.length s))
    by (rewrite length_app; simpl; lia).
  rewrite <- app_assoc. cbn [app].
  rewrite rho_retry_by_reference.
  destruct (Factor.rho_retry fuel m rng1) as [[d rng2] | e |]; cbn [bind];
    [| reflexivity | exact I].
  assert (Hlen : (S (List.length s) < List.length (s ++ [m; d]))%nat)
    by (rewrite length_app; simpl; lia).
  rewrite (Hself _ rng2 _ Hlen).
  assert (Hd : ByReference.read (s ++ [m; d]) (S (List.length s)) = d).
  { change (s ++ [m; d]) with (s ++ [m] ++ [d]). rewrite app_assoc.
    replace (S (List.length s)) with (List.length (s ++ [m]))
      by (rewrite length_app; simpl; lia).
    apply read_last. }
  rewrite Hd.
  destruct (self d rng2) as [[rho_factored rng3] | e |]; cbn [bind];
    [| reflexivity | exact I].
  rewrite read_last, Hd, write_last.
  assert (Hleave : ByReference.leave (s ++ [m / d; d]) (S (List.length s)) =
                   s ++ [m / d]).
  { change (s ++ [m / d; d]) with (s ++ [m / d] ++ [d]). rewrite app_assoc.
    replace (S (List.length s)) with (List.length (s ++ [m / d]))
      by (rewrite length_app; simpl; lia).
    apply leave_declared. }
  rewrite Hleave. apply IH.
Qed.

(** [factorize] on the object at [n_in] returns what [factorize] on its
    value returns, and the store as it was. *)
Lemma factorize_by_reference (fuel : nat) :
  forall (n_in : ByReference.ref) (rng : RandomNumberGenerator) (s : ByReference.store),
    (n_in < List.length s)%nat ->
    ByReference.factorize fuel n_in rng s =
    match Factor.factorize fuel (ByReference.read s n_in) rng with
    | Returned (fs, rng') => Returned (fs, rng', s)
    | Thrown e => Thrown e
    | Running => Running
    end.
Proof.
  induction fuel as [| fuel IH]; intros n_in rng s Hin; [reflexivity |].
  cbn [ByReference.factorize Factor.factorize]. unfold ByReference.declare.
  rewrite remove_small_factors_by_reference by (rewrite length_app; simpl; lia).
  rewrite read_last.
  destruct (Factor.remove_small_factors fuel (ByReference.read s n_in))
    as [[n1 factors] | e |]; cbn [bind]; try reflexivity.
  rewrite write_last.
  pose proof (factorize_loop_by_reference (Factor.factorize fuel)
                (ByReference.factorize fuel) IH fuel s n1 factors rng) as Hloop.
  destruct (ByReference.factorize_loop (ByReference.factorize fuel) fuel
              (List.length s) factors rng (s ++ [n1])) as [[[fs g] s'] | e |];
    destruct (Factor.factorize_loop (Factor.factorize fuel) fuel n1 factors rng)
      as [[fs0 g0] | e0 |]; try contradiction; cbn [bind]; try reflexivity.
  - destruct Hloop as [-> [-> [m' ->]]].
    rewrite (leave_declared s [m']). reflexivity.
  - rewrite Hloop. reflexivity.
Qed.

Lemma go_by_reference
    (fuel : nat) (arg : Z) (rng : RandomNumberGenerator) (s : ByReference.store) :
  ByReference.go fuel arg rng s =
  match Factor.go fuel arg rng with
  | Returned (line, rng') => Returned (line, rng', s)
  | Thrown e => Thrown e
  | Running => Running
  end.
Proof.
  unfold ByReference.go, Factor.go, ByReference.declare.
  rewrite factorize_by_reference by (rewrite length_app; simpl; lia).
  rewrite read_last.
  destruct (Factor.factorize fuel arg rng) as [[fs rng1] | e |]; cbn [bind];
    try reflexivity.
  rewrite read_last, (leave_declared s [arg]). reflexivity.
Qed.

(** X15. The commands on the store compute what the commands on values
    compute, at every budget: [remove_small_factors] returns the same
    vector and leaves the value that is returned next to it in the object
    it was handed; [factorize] and [go] return the same vector, the same
    line and the same state of the generator, in the store they were
    called with; and one is still running exactly when the other is. *)
Theorem by_reference_agrees
    (fuel : nat) (rng : RandomNumberGenerator) (s : ByReference.store) :
  (forall a, (a < List.length s)%nat ->
     ByReference.remove_small_factors fuel a s =
     match Factor.remove_small_factors fuel (ByReference.read s a) with
     | Returned (n', F) => Returned (F, ByReference.write s a n')
     | Thrown e => Thrown e
     | Running => Running
     end) /\
  (forall n_in, (n_in < List.length s)%nat ->
     ByReference.factorize fuel n_in rng s =
     match Factor.factorize fuel (ByReference.read s n_in) rng with
     | Returned (fs, rng') => Returned (fs, rng', s)
     | Thrown e => Thrown e
     | Running => Running
     end) /\
  (forall arg,
     ByReference.go fuel arg rng s =
     match Factor.go fuel arg rng with
     | Returned (line, rng') => Returned (line, rng', s)
     | Thrown e => Thrown e
     | Running => Running
     end).
Proof.
  split; [| split].
  - intros a Ha. apply remove_small_factors_by_reference. exact Ha.
  - intros n_in Hin. apply factorize_by_reference. exact Hin.
  - intros arg. apply go_by_reference.
Qed.

(** C10. [factorize] does not change the integer it is handed.  Whatever
    reference [n_in] it receives (the object of [go], or the [a_factor] of
    an enclosing call), when it returns every object of the caller is as
    it was, [n_in] included, and the vector is the one computed from the
    value of [n_in]; the small factors were divided out of an object of
    [factorize]'s own, and [remove_small_factors], which does write
    through its reference, was handed that one.  So the line of the factor
    command starts with the integer that was parsed. *)
Theorem factorize_leaves_caller_integer
    (fuel : nat) (rng : RandomNumberGenerator) (s : ByReference.store) :
  (forall n_in fs rng' s',
     (n_in < List.length s)%nat ->
     ByReference.factorize fuel n_in rng s = Returned (fs, rng', s') ->
     s' = s /\ ByReference.read s' n_in = ByReference.read s n_in /\
     Factor.factorize fuel (ByReference.read s n_in) rng = Returned (fs, rng')) /\
  (forall a F s',
     (a < List.length s)%nat ->
     ByReference.remove_small_factors fuel a s = Returned (F, s') ->
     exists n', Factor.remove_small_factors fuel (ByReference.read s a) = Returned (n', F) /\
                s' = ByReference.write s a n' /\ ByReference.read s' a = n') /\
  (forall arg line rng' s',
     ByReference.go fuel arg rng s = Returned (line, rng', s') ->
     exists fs,
       ByReference.factorize fuel (List.length s) rng (s ++ [arg]) =
       Returned (fs, rng', s ++ [arg]) /\
       line = Factor.render arg (sort fs) /\ s' = s).
Proof.
  split; [| split].
  - intros n_in fs rng' s' Hin Hrun.
    rewrite factorize_by_reference in Hrun by exact Hin.
    destruct (Factor.factorize fuel (ByReference.read s n_in) rng) as [[fs0 g0] | e |];
      try discriminate.
    injection Hrun as <- <- <-. repeat split.
  - intros a F s' Ha Hrun.
    rewrite remove_small_factors_by_reference in Hrun by exact Ha.
    destruct (Factor.remove_small_factors fuel (ByReference.read s a)) as [[n' F0] | e |];
      try discriminate.
    injection Hrun as <- <-. exists n'.
    split; [reflexivity |]. split; [reflexivity |].
    apply read_write_same. exact Ha.
  - intros arg line rng' s' Hrun.
    pose proof Hrun as Hgo. rewrite go_by_reference in Hgo.
    unfold Factor.go in Hgo.
    assert (Hlen : (List.length s < List.length (s ++ [arg]))%nat)
      by (rewrite length_app; simpl; lia).
    rewrite (factorize_by_reference fuel _ rng _ Hlen), read_last.
    destruct (Factor.factorize fuel arg rng) as [[fs rng1] | e |]; try discriminate.
    cbn [bind] in Hgo. injection Hgo as <- <- <-.
    exists fs. repeat split.
Qed.

End ByReferenceProperties.

(** 108 = 2 * 2 * 3 * 3 * 3 among other objects: [remove_small_factors]
    leaves 9 in the object it is handed, [factorize] leaves 108 (its
    recursive call is handed the factor 3 that [rho] finds in 9), and the
    line starts with 108. *)
Lemma factorize_leaves_caller_integer_witness :
  ([7; 108; 9] = [7; 108; 9] /\
   ByReference.read [7; 108; 9] 1%nat = 108 /\
   Factor.factorize 50 108 0 = Returned ([2; 2; 3; 3; 3], 1)) /\
  (exists n',
     Factor.remove_small_factors 50 108 = Returned (n', [2; 2; 3]) /\
     [7; 9; 9] = ByReference.write [7; 108; 9] 1%nat n' /\
     ByReference.read [7; 9; 9] 1%nat = n') /\
  (exists fs,
     ByReference.factorize 50 3%nat 0 [7; 108; 9; 108] =
     Returned (fs, 1, [7; 108; 9; 108]) /\
     ("108: 2 2 3 3 3 " ++ newline)%string = Factor.render 108 (sort fs) /\
     [7; 108; 9] = [7; 108; 9]).
Proof.
  destruct (factorize_leaves_caller_integer (Lib := Reference.library) 50 0 [7; 108; 9])
    as [Hframe [Hwrite Hline]].
  split; [| split].
  - apply (Hframe 1%nat [2; 2; 3; 3; 3] 1 [7; 108; 9]).
    + simpl. lia.
    + vm_compute. reflexivity.
  - apply (Hwrite 1%nat [2; 2; 3] [7; 9; 9]).
    + simpl. lia.
    + vm_compute. reflexivity.
  - apply (Hline 108 ("108: 2 2 3 3 3 " ++ newline)%string 1 [7; 108; 9]).
    vm_compute. reflexivity.
Defined.

(** 28542 = 2 * 3 * 67 * 71 next to another object: the small factors 2
    and 3 leave 4757 in the object handed to [remove_small_factors]; in
    [factorize] the two others are found by [rho] and the recursive call
    on [a_factor], and the object holds 28542 afterwards. *)
Lemma by_reference_agrees_witness :
  ByReference.remove_small_factors 300 1%nat [12; 28542] =
  Returned ([2; 3], [12; 4757]) /\
  ByReference.factorize 300 1%nat 0 [12; 28542] =
  Returned ([2; 3; 67; 71], 2, [12; 28542]) /\
  ByReference.go 300 28542 0 [12; 28542] =
  Returned (("28542: 2 3 67 71 " ++ newline)%string, 2, [12; 28542]).
Proof.
  destruct (by_reference_agrees (Lib := Reference.library) 300 0 [12; 28542])
    as [Hsmall [Hfact Hgo]].
  split; [| split].
  - rewrite (Hsmall 1%nat) by (simpl; lia). vm_compute. reflexivity.
  - rewrite (Hfact 1%nat) by (simpl; lia). vm_compute. reflexivity.
  - rewrite (Hgo 28542). vm_compute. reflexivity.
Defined.

(** ** The further properties on the reference library *)

(** 360 = 2 * 2 * 2 * 3 * 3 * 5: [2; 2; 2; 3; 5] goes, 3 stays. *)
Lemma remove_small_factors_exact_witness :
  Factor.remove_small_factors 5 360 =
  Returned (360 / product (small_factors 360), small_factors 360) /\
  small_factors 360 = [2; 2; 2; 3; 5] /\ 360 / product (small_factors 360) = 3.
Proof.
  split.
  - apply (remove_small_factors_exact 5 360
             reference_table_of_primes reference_table_ascending).
    + reflexivity.
    + apply Nat.le_refl.
  - split; reflexivity.
Defined.

Lemma remove_small_factors_ascending_witness :
  exists n' F,
    Factor.remove_small_factors 5 360 = Returned (n', F) /\
    StronglySorted Z.le F /\ sort F = F.
Proof.
  apply (remove_small_factors_ascending 5 360
           reference_table_of_primes reference_table_ascending).
  - reflexivity.
  - apply Nat.le_refl.
Defined.

(** 402 = 2 * 3 * 67, and 67 is beyond the table: the oracle takes it. *)
Lemma factorize_without_rho_witness :
  (402 / product (small_factors 402) = 1 ->
   Factor.factorize 4 402 0 = Returned (small_factors 402, 0)) /\
  (402 / product (small_factors 402) <> 1 -> true = true ->
   Factor.factorize 4 402 0 =
   Returned (small_factors 402 ++ [402 / product (small_factors 402)], 0)).
Proof.
  apply (factorize_without_rho (Lib := Reference.library) 4 402 0 0 true
           reference_table_of_primes reference_table_ascending).
  - reflexivity.
  - apply Nat.le_refl.
  - vm_compute. reflexivity.
Defined.

Lemma factorize_entries_nontrivial_witness :
  Forall (fun f => 1 < f /\ (f | 108)) [2; 2; 3; 3; 3] /\
  2 ^ Z.of_nat (List.length [2; 2; 3; 3; 3]) <= 108 /\
  Z.of_nat (List.length [2; 2; 3; 3; 3]) <= Z.log2 108.
Proof.
  apply (factorize_entries_nontrivial reference_table_of_primes 50 108 0 1).
  - reflexivity.
  - vm_compute. reflexivity.
Defined.

Lemma factorize_empty_iff_one_witness :
  (forall fs rng', Factor.factorize 3 1 0 = Returned (fs, rng') ->
                   (fs = [] <-> 1 = 1)) /\
  (1 = 1 -> (2 <= 3)%nat -> Factor.factorize 3 1 0 = Returned ([], 0)).
Proof.
  apply (factorize_empty_iff_one reference_table_of_primes 3 1 0).
  reflexivity.
Defined.

(** On 9 the attempt of [rho] finds 3 from the seeds 2 and 5, and fails
    from the seeds 3 and 4. *)
Lemma reference_rho_9 (g : Z) :
  Factor.rho 30 9 g =
  Returned (if (g mod 4 =? 0) || (g mod 4 =? 3) then 3 else 0, g + 1).
Proof.
  assert (Hcases : g mod 4 = 0 \/ g mod 4 = 1 \/ g mod 4 = 2 \/ g mod 4 = 3).
  { pose proof (Z.mod_pos_bound g 4). lia. }
  unfold Factor.rho. cbn [random_integer Reference.library].
  unfold Reference.counter_integer. change (9 - 3 - 2) with 4.
  destruct Hcases as [H | [H | [H | H]]]; rewrite H; vm_compute; reflexivity.
Qed.

Lemma reference_retry_step (fuel : nat) (g : Z) :
  (30 <= fuel)%nat ->
  Factor.rho_retry (S fuel) 9 g =
  if (g mod 4 =? 0) || (g mod 4 =? 3)
  then Returned (3, g + 1)
  else Factor.rho_retry fuel 9 (g + 1).
Proof.
  intros Hfuel. cbn [Factor.rho_retry].
  rewrite (rho_mono (Lib := Reference.library) 30 fuel 9 g _
             (reference_rho_9 g) Hfuel). cbn [bind].
  destruct ((g mod 4 =? 0) || (g mod 4 =? 3)); reflexivity.
Qed.

Lemma reference_retry_9 (g : Z) :
  exists fuel r, Factor.rho_retry fuel 9 g = Returned r.
Proof.
  assert (Hcases : g mod 4 = 0 \/ g mod 4 = 1 \/ g mod 4 = 2 \/ g mod 4 = 3).
  { pose proof (Z.mod_pos_bound g 4). lia. }
  exists 33%nat, (3, if g mod 4 =? 0 then g + 1
                    else if g mod 4 =? 3 then g + 1
                    else if g mod 4 =? 2 then g + 1 + 1
                    else g + 1 + 1 + 1).
  destruct Hcases as [H | [H | [H | H]]].
  - rewrite reference_retry_step, H by lia. reflexivity.
  - assert (H1 : (g + 1) mod 4 = 2) by (Z.to_euclidean_division_equations; lia).
    assert (H2 : (g + 1 + 1) mod 4 = 3) by (Z.to_euclidean_division_equations; lia).
    rewrite reference_retry_step, H by lia. cbn [Z.eqb orb].
    rewrite reference_retry_step, H1 by lia. cbn [Z.eqb orb Pos.eqb].
    rewrite reference_retry_step, H2 by lia. reflexivity.
  - assert (H1 : (g + 1) mod 4 = 3) by (Z.to_euclidean_division_equations; lia).
    rewrite reference_retry_step, H by lia. cbn [Z.eqb orb Pos.eqb].
    rewrite reference_retry_step, H1 by lia. reflexivity.
  - rewrite reference_retry_step, H by lia. reflexivity.
Qed.

(** On 27 an attempt of [rho] finds 3 or 9, or fails, by the seed. *)
Lemma reference_rho_27 (g : Z) :
  Factor.rho 30 27 g =
  Returned (if (g mod 22) mod 3 =? 0 then 3
            else if (g mod 22) mod 3 =? 1 then 0 else 9, g + 1).
Proof.
  assert (Hcases :
    g mod 22 = 0 \/ g mod 22 = 1 \/ g mod 22 = 2 \/ g mod 22 = 3 \/ g mod 22 = 4 \/
    g mod 22 = 5 \/ g mod 22 = 6 \/ g mod 22 = 7 \/ g mod 22 = 8 \/ g mod 22 = 9 \/
    g mod 22 = 10 \/ g mod 22 = 11 \/ g mod 22 = 12 \/ g mod 22 = 13 \/
    g mod 22 = 14 \/ g mod 22 = 15 \/ g mod 22 = 16 \/ g mod 22 = 17 \/
    g mod 22 = 18 \/ g mod 22 = 19 \/ g mod 22 = 20 \/ g mod 22 = 21).
  { pose proof (Z.mod_pos_bound g 22). lia. }
  unfold Factor.rho. cbn [random_integer Reference.library].
  unfold Reference.counter_integer. change (27 - 3 - 2) with 22.
  repeat (destruct Hcases as [H | Hcases]; [rewrite H; vm_compute; reflexivity |]).
  rewrite Hcases. vm_compute. reflexivity.
Qed.

Lemma reference_retry_27_step (fuel : nat) (g : Z) :
  (30 <= fuel)%nat ->
  Factor.rho_retry (S fuel) 27 g =
  if (g mod 22) mod 3 =? 0 then Returned (3, g + 1)
  else if (g mod 22) mod 3 =? 1 then Factor.rho_retry fuel 27 (g + 1)
  else Returned (9, g + 1).
Proof.
  intros Hfuel. cbn [Factor.rho_retry].
  rewrite (rho_mono (Lib := Reference.library) 30 fuel 27 g _
             (reference_rho_27 g) Hfuel). cbn [bind].
  destruct ((g mod 22) mod 3 =? 0); [reflexivity |].
  destruct ((g mod 22) mod 3 =? 1); reflexivity.
Qed.

(** After a failed attempt on 27 the next seed succeeds. *)
Lemma reference_retry_27 (g : Z) :
  exists fuel r, Factor.rho_retry fuel 27 g = Returned r.
Proof.
  exists 32%nat.
  rewrite reference_retry_27_step by lia.
  destruct ((g mod 22) mod 3 =? 0) eqn:E0; [eexists; reflexivity |].
  destruct ((g mod 22) mod 3 =? 1) eqn:E1; [| eexists; reflexivity].
  apply Z.eqb_eq in E1.
  assert (H2 : ((g + 1) mod 22) mod 3 = 2)
    by (Z.to_euclidean_division_equations; lia).
  rewrite reference_retry_27_step by lia. rewrite H2. eexists. reflexivity.
Qed.

(** 27 = 3 * 3 * 3: the table takes one 3 out, and the retry loop is
    started on 9; the divisors of 27 it could be started on are 9 and 27. *)
Lemma factorize_returns_on_divisors_witness :
  exists fuel fs g', Factor.factorize fuel 27 0 = Returned (fs, g').
Proof.
  apply (factorize_returns_on_divisors reference_table_of_primes 27).
  - reflexivity.
  - intros m g g1 Hm Hdiv Hodd Horacle.
    assert (Hle : m <= 27) by (apply Z.divide_pos_le; [reflexivity | exact Hdiv]).
    apply Z.mod_divide in Hdiv; [| lia].
    assert (Hcases :
      m = 2 \/ m = 3 \/ m = 4 \/ m = 5 \/ m = 6 \/ m = 7 \/ m = 8 \/ m = 9 \/ m = 10 \/
      m = 11 \/ m = 12 \/ m = 13 \/ m = 14 \/ m = 15 \/ m = 16 \/ m = 17 \/ m = 18 \/
      m = 19 \/ m = 20 \/ m = 21 \/ m = 22 \/ m = 23 \/ m = 24 \/ m = 25 \/ m = 26 \/
      m = 27) by lia.
    repeat (destruct Hcases as [-> | Hcases];
            [first [discriminate Hdiv | discriminate Horacle
                   | apply reference_retry_9 | apply reference_retry_27] |]).
    subst m. apply reference_retry_27.
Defined.

(** 347261 = 67 * 71 * 73, all beyond the table: from the state 0 [rho]
    finds 73 first, from the state 1 it finds 67 first. *)
Lemma go_line_independent_of_generator_witness :
  Factor.factorize 300 347261 0 = Returned ([73; 67; 71], 2) /\
  Factor.factorize 300 347261 1 = Returned ([67; 73; 71], 3) /\
  exists line1 line2,
    Factor.go 300 347261 0 = Returned (line1, 2) /\
    Factor.go 300 347261 1 = Returned (line2, 3) /\
    line1 = line2.
Proof.
  split; [vm_compute; reflexivity |]. split; [vm_compute; reflexivity |].
  assert (Hrun1 : Factor.go 300 347261 0 =
                  Returned (("347261: 67 71 73 " ++ newline)%string, 2))
    by (vm_compute; reflexivity).
  assert (Hrun2 : Factor.go 300 347261 1 =
                  Returned (("347261: 67 71 73 " ++ newline)%string, 3))
    by (vm_compute; reflexivity).
  exists ("347261: 67 71 73 " ++ newline)%string, ("347261: 67 71 73 " ++ newline)%string.
  split; [exact Hrun1 |]. split; [exact Hrun2 |].
  apply (go_line_independent_of_generator (Lib := Reference.library)
           300 300 347261 0 1 2 3).
  - exact reference_table_of_primes.
  - exact reference_oracle_exact.
  - reflexivity.
  - exact Hrun1.
  - exact Hrun2.
Defined.

Lemma go_prints_ascending_witness :
  exists fs printed,
    Factor.factorize 300 347261 0 = Returned (fs, 2) /\
    Permutation fs printed /\ StronglySorted Z.le printed /\
    ("347261: 67 71 73 " ++ newline)%string = Factor.render 347261 printed.
Proof.
  apply (go_prints_ascending (Lib := Reference.library) 300 347261 0 2).
  vm_compute. reflexivity.
Defined.

(** With [size_t] of 64 bits: from [i = 2], [k = 4] to [i = 3], [k = 4]. *)
Lemma rho_keeps_brent_schedule_witness :
  brent_schedule 1 2 /\
  3 = 2 + 1 /\ 3 < rho_cap /\ brent_schedule 3 4 /\
  ((3 = 4 /\ 4 = 2 * 4 /\ (35, 5) = (35, 26)) \/
   (3 <> 4 /\ 4 = 4 /\ (35, 5) = (35, 5))).
Proof.
  apply (rho_keeps_brent_schedule (Lib := Reference.library)
           35 (35, 1) (35, 5) (35, 5) (35, 1) (35, 26) (35, 5) (35, 14) 2 4 3 4).
  - discriminate.
  - exists 2. repeat split; try reflexivity; discriminate.
  - reflexivity.
  - vm_compute. reflexivity.
Defined.

(** Eight bits, three values. *)
Lemma gen_prime_writes_count_witness :
  exists ps rng',
    Gen_Prime.draws Reference.counter_prime (Z.to_nat 3) 8 0 = (ps, rng') /\
    Gen_Prime.go Reference.counter_prime 4 8 3 0 =
    Returned (concat EmptyString (map (fun p => (dec p ++ newline)%string) ps), rng') /\
    Z.of_nat (List.length ps) = 3 /\
    forall P : Z -> Prop,
      (forall g, P (fst (Reference.counter_prime g 8))) -> Forall P ps.
Proof.
  apply (gen_prime_writes_count (Lib := Reference.library) Reference.counter_prime 4 8 3 0).
  - split; [discriminate | reflexivity].
  - vm_compute. apply Nat.le_refl.
Defined.

Example gen_prime_8_3 :
  Gen_Prime.go Reference.counter_prime 4 8 3 0 =
  Returned (("131" ++ newline ++ "149" ++ newline ++ "163" ++ newline)%string, 3).
Proof. vm_compute. reflexivity. Qed.

(** On 9 from the state 1: two failed attempts, then 3. *)
Lemma rho_retry_exits_with_proper_divisor_witness :
  1 < 3 < 9 /\ (3 | 9) /\ 9 = 3 * (9 / 3) /\ 1 < 9 / 3 < 9.
Proof.
  apply (rho_retry_exits_with_proper_divisor (Lib := Reference.library) 40 9 1 4 3).
  - reflexivity.
  - vm_compute. reflexivity.
Defined.
